(** * Options pricing tool: payoff primitives, analytic pricer, simulation
      pricer, risk statistics and price grid

    A shallow embedding of [models.py] and of the risk-metrics lines of
    [main.py].  Python floats are read as real numbers: every formula is
    embedded over [R], with the arithmetic of the source kept operator by
    operator.  An operation that numpy leaves without a value (the mean of
    an empty array, the percentile of an empty array) returns [None].

    Two things the real numbers cannot show are modelled apart.  The risk
    lines are also embedded over floats extended with the infinities and
    NaN ([Ext]), where an overflowed sample can be written down; and the
    price grid is also embedded over binary64 itself ([F64]), where
    rounding can merge its endpoints. *)

From Stdlib Require Import Reals Lra Lia List String ZArith Bool.
From Stdlib Require Import Sorting.Sorted Sorting.Permutation.
From Stdlib Require Floats.PrimFloat Numbers.Cyclic.Int63.Uint63.
Import ListNotations.

Open Scope R_scope.

(** ** The numpy operations used by the program *)

Module Np.

(** [a - k] for an array [a] and a scalar [k]. *)
Definition sub_scalar (a : list R) (k : R) : list R :=
  map (fun x => x - k) a.

(** [k - a] for a scalar [k] and an array [a]. *)
Definition scalar_sub (k : R) (a : list R) : list R :=
  map (fun x => k - x) a.

(** [k * a] for a scalar [k] and an array [a]. *)
Definition scale (k : R) (a : list R) : list R :=
  map (fun x => k * x) a.

(** [np.maximum(a, c)] against a scalar [c]. *)
Definition maximum (a : list R) (c : R) : list R :=
  map (fun x => Rmax x c) a.

(** [np.zeros_like(a)]. *)
Definition zeros_like (a : list R) : list R :=
  map (fun _ => 0) a.

(** Elementwise [a + b] of two arrays of one shape. *)
Fixpoint add (a b : list R) : list R :=
  match a, b with
  | x :: a', y :: b' => (x + y) :: add a' b'
  | _, _ => []
  end.

(** [np.sum(a)]. *)
Definition sum (a : list R) : R := fold_right Rplus 0 a.

(** [np.mean(a)]: the sum over the number of elements; no value on an
    empty array (numpy warns "Mean of empty slice" and yields NaN). *)
Definition mean (a : list R) : option R :=
  match a with
  | [] => None
  | _ :: _ => Some (sum a / INR (List.length a))
  end.

(** [np.exp(a)], elementwise. *)
Definition exp_arr (a : list R) : list R := map exp a.

(** [a * k] for an array [a] and a scalar [k]. *)
Definition mul_scalar (a : list R) (k : R) : list R :=
  map (fun x => x * k) a.

End Np.

(** ** Payoff primitives ([models.py], [option_payoff], [strategy_payoff]) *)

Definition option_payoff (S_range : list R) (K : R) (option_type : string)
  : list R :=
  if String.eqb option_type "call"
  then Np.maximum (Np.sub_scalar S_range K) 0
  else Np.maximum (Np.scalar_sub K S_range) 0.

(** One leg of a strategy: the dict with keys ['type'], ['strike'],
    ['action'], ['quantity'] and ['premium']. *)
Record position : Type := mkPosition
  { type : string;
    strike : R;
    action : string;
    quantity : Z;
    premium : R }.

(** [quantity * (1 if action == 'buy' else -1)], an integer. *)
Definition multiplier (pos : position) : Z :=
  (quantity pos * (if String.eqb (action pos) "buy" then 1 else -1))%Z.

(** The body of the loop over the positions, on the pair
    [(total_payoff, total_cost)]. *)
Definition strategy_step (S_range : list R) (acc : list R * R)
  (pos : position) : list R * R :=
  let payoff_vals := option_payoff S_range (strike pos) (type pos) in
  (Np.add (fst acc) (Np.scale (IZR (multiplier pos)) payoff_vals),
   snd acc + IZR (multiplier pos) * premium pos).

Definition strategy_payoff (S_range : list R) (positions : list position)
  : list R :=
  let acc :=
    fold_left (strategy_step S_range) positions (Np.zeros_like S_range, 0) in
  Np.sub_scalar (fst acc) (snd acc).

(** ** Analytic pricer ([models.py], [black_scholes], [calculate_greeks]) *)

(** [scipy.stats.norm.pdf]: the standard normal density. *)
Definition norm_pdf (x : R) : R := exp (- (x * x) / 2) / sqrt (2 * PI).

(** The four-key mapping returned by [calculate_greeks]. *)
Record greeks : Type := mkGreeks
  { Delta : R;
    Gamma : R;
    Theta : R;
    Vega : R }.

Section AnalyticPricer.

(** [scipy.stats.norm.cdf], the standard normal distribution function, is
    library code: the pricer is embedded over any function taking its
    place, and the theorems state which of its properties they rely on. *)
Variable norm_cdf : R -> R.

Definition black_scholes (S K T r sigma : R) (option_type : string) : R :=
  let d1 := (ln (S / K) + (r + 0.5 * sigma ^ 2) * T) / (sigma * sqrt T) in
  let d2 := d1 - sigma * sqrt T in
  if String.eqb option_type "call"
  then S * norm_cdf d1 - K * exp (- r * T) * norm_cdf d2
  else K * exp (- r * T) * norm_cdf (- d2) - S * norm_cdf (- d1).

Definition calculate_greeks (S K T r sigma : R) (option_type : string)
  : greeks :=
  let d1 := (ln (S / K) + (r + 0.5 * sigma ^ 2) * T) / (sigma * sqrt T) in
  let delta :=
    if String.eqb option_type "call" then norm_cdf d1 else norm_cdf d1 - 1 in
  let gamma := norm_pdf d1 / (S * sigma * sqrt T) in
  let theta_calc := - S * norm_pdf d1 * sigma / (2 * sqrt T) in
  let theta :=
    if String.eqb option_type "call"
    then (theta_calc
          - r * K * exp (- r * T) * norm_cdf (d1 - sigma * sqrt T)) / 365
    else (theta_calc
          + r * K * exp (- r * T) * norm_cdf (- (d1 - sigma * sqrt T))) / 365
  in
  let vega := S * norm_pdf d1 * sqrt T / 100 in
  {| Delta := delta; Gamma := gamma; Theta := theta; Vega := vega |}.

End AnalyticPricer.

(** The distribution function of the logistic law, [1 / (1 + exp (- x))]:
    a concrete function with the range and the symmetry of a distribution
    function of a law symmetric about zero, at which the statements on the
    pricer are instantiated. *)
Definition logistic_cdf (x : R) : R := 1 / (1 + exp (- x)).

(** ** Price grid ([models.py], [get_price_range]) *)

(** [np.linspace(start, stop, num)] with the default [endpoint=True]:
    [arange(0, num) * step + start] with [step = (stop - start) / (num - 1)],
    and the last element overwritten with [stop] when [num > 1]. *)
Definition linspace (start stop : R) (num : nat) : list R :=
  let div := INR (num - 1) in
  let step := (stop - start) / div in
  let y := map (fun i => INR i * step + start) (seq 0 num) in
  if (1 <? num)%nat then removelast y ++ [stop] else y.

Definition get_price_range (S factor : R) : list R :=
  linspace (S * (1 - factor)) (S * (1 + factor)) 100.

(** ** Simulation pricer ([models.py], [monte_carlo_option]) *)

(** The global generator of [np.random], as the sequence of standard
    normal variates it is going to deliver. *)
Definition rng : Type := nat -> R.

(** [np.random.standard_normal(n)]: the next [n] variates, and the
    generator left after them. *)
Definition standard_normal (n : nat) (g : rng) : list R * rng :=
  (map g (seq 0 n), fun i => g (n + i)%nat).

(** The terminal price for one variate [z]. *)
Definition terminal_price (S T r sigma z : R) : R :=
  S * exp ((r - 0.5 * sigma ^ 2) * T + sigma * sqrt T * z).

(** The arguments of one call, the key of the cache. *)
Record mc_args : Type := mkArgs
  { arg_S : R;
    arg_K : R;
    arg_T : R;
    arg_r : R;
    arg_sigma : R;
    arg_simulations : nat;
    arg_option_type : string }.

(** The function under the decorator: it draws from the generator. *)
Definition monte_carlo_body (a : mc_args) (g : rng)
  : (option R * list R) * rng :=
  let (Z, g') := standard_normal (arg_simulations a) g in
  let S_T :=
    Np.scale (arg_S a)
      (Np.exp_arr
         (map (fun z => (arg_r a - 0.5 * arg_sigma a ^ 2) * arg_T a
                        + arg_sigma a * sqrt (arg_T a) * z) Z)) in
  let payoffs := option_payoff S_T (arg_K a) (arg_option_type a) in
  ((option_map (Rmult (exp (- arg_r a * arg_T a))) (Np.mean payoffs), S_T),
   g').

(** *** The [@st.cache_data] decorator

    The decorated function keeps a table from argument tuples to results.
    A call whose arguments are in the table returns the stored result and
    does not run the body; any other call runs the body and stores what it
    returns. *)

Section CacheData.

Context {A B W : Type}.
Variable key_eqb : A -> A -> bool.

Fixpoint cache_lookup (k : A) (c : list (A * B)) : option B :=
  match c with
  | [] => None
  | (k', v) :: c' => if key_eqb k k' then Some v else cache_lookup k c'
  end.

Definition cache_data (f : A -> W -> B * W) (k : A) (st : list (A * B) * W)
  : B * (list (A * B) * W) :=
  match cache_lookup k (fst st) with
  | Some v => (v, st)
  | None =>
      let (v, w') := f k (snd st) in
      (v, ((k, v) :: fst st, w'))
  end.

End CacheData.

Definition Reqb (x y : R) : bool := if Req_dec_T x y then true else false.

Definition mc_args_eqb (a b : mc_args) : bool :=
  Reqb (arg_S a) (arg_S b) && Reqb (arg_K a) (arg_K b)
  && Reqb (arg_T a) (arg_T b) && Reqb (arg_r a) (arg_r b)
  && Reqb (arg_sigma a) (arg_sigma b)
  && Nat.eqb (arg_simulations a) (arg_simulations b)
  && String.eqb (arg_option_type a) (arg_option_type b).

(** What a call can see and change: the table of the decorator and the
    generator. *)
Definition world : Type := list (mc_args * (option R * list R)) * rng.

Definition monte_carlo_option (a : mc_args) (w : world)
  : (option R * list R) * world :=
  cache_data mc_args_eqb monte_carlo_body a w.

(** ** Risk statistics ([main.py], the lines computing [VaR_95] and [ES_95]) *)

Definition Rleb (x y : R) : bool := if Rle_dec x y then true else false.

(** Ascending sort, by insertion. *)
Fixpoint insert_sorted (x : R) (l : list R) : list R :=
  match l with
  | [] => [x]
  | y :: l' => if Rleb x y then x :: y :: l' else y :: insert_sorted x l'
  end.

Definition sort (a : list R) : list R := fold_right insert_sorted [] a.

(** numpy's linear interpolation between two neighbours [a] and [b] at the
    fraction [t]: [a + (b - a) * t], computed from the side of [b] once [t]
    has reached one half. *)
Definition lerp (a b t : R) : R :=
  if Rleb (1 / 2) t then b - (b - a) * (1 - t) else a + (b - a) * t.

(** [np.percentile(a, q)] with the default linear method, for a whole
    number of percent [q] between 0 and 100: on the sorted array of [n]
    elements the virtual index is [(n - 1) * q / 100]; its integer part [j]
    picks the lower neighbour, the next position (kept inside the array)
    the upper one, and its fractional part [g] interpolates between the
    two.  An empty array has no percentile. *)
Definition percentile (a : list R) (q : nat) : option R :=
  match a with
  | [] => None
  | _ :: _ =>
      let n := List.length a in
      let sorted := sort a in
      let j := ((n - 1) * q / 100)%nat in
      let g := INR (((n - 1) * q) mod 100) / 100 in
      let previous := nth j sorted 0 in
      let next := nth (Nat.min (j + 1) (n - 1)) sorted 0 in
      Some (lerp previous next g)
  end.

(** [S_T[S_T <= v]]: the elements selected by the boolean mask. *)
Definition mask_le (S_T : list R) (v : R) : list R :=
  filter (fun x => Rleb x v) S_T.

(** [VaR_95 = np.percentile(S_T, 5)]. *)
Definition VaR_95 (S_T : list R) : option R := percentile S_T 5.

(** [ES_95 = S_T[S_T <= VaR_95].mean()], from the sample and the value [v]
    held by the variable [VaR_95]. *)
Definition ES_95 (S_T : list R) (v : R) : option R :=
  Np.mean (mask_le S_T v).

(** The two lines in sequence: where the first has no value the second is
    not reached, and no figure is produced. *)
Definition risk_metrics (S_T : list R) : option (R * option R) :=
  match VaR_95 S_T with
  | None => None
  | Some v => Some (v, ES_95 S_T v)
  end.

(** The largest finite binary64 number, [(2 - 2^-52) * 2^1023]. *)
Definition max_float : R := (2 - / 2 ^ 52) * 2 ^ 1023.

(** ** The risk lines over floats with infinities and NaN

    A float is a real number, an infinity or NaN.  Finite arithmetic is
    exact as long as its result is within the range of binary64, and
    overflows to an infinity beyond it; the special values follow
    IEEE 754, as numpy does: the difference of two equal infinities and the
    product of zero and an infinity are NaN, NaN spreads through every
    operation, and every comparison with NaN is false. *)

Module Ext.

Inductive xfloat : Type :=
| Fin (x : R)
| PInf
| NInf
| NaN.

Definition is_nan (a : xfloat) : bool :=
  match a with NaN => true | _ => false end.

Definition is_finite (a : xfloat) : bool :=
  match a with Fin _ => true | _ => false end.

(** The float of a real result: itself within the range, an infinity
    beyond it. *)
Definition of_real (x : R) : xfloat :=
  if Rlt_dec max_float x then PInf
  else if Rlt_dec x (- max_float) then NInf
  else Fin x.

Definition opp (a : xfloat) : xfloat :=
  match a with
  | Fin x => Fin (- x)
  | PInf => NInf
  | NInf => PInf
  | NaN => NaN
  end.

Definition add (a b : xfloat) : xfloat :=
  match a, b with
  | NaN, _ | _, NaN => NaN
  | Fin x, Fin y => of_real (x + y)
  | PInf, NInf | NInf, PInf => NaN
  | PInf, _ | _, PInf => PInf
  | NInf, _ | _, NInf => NInf
  end.

Definition sub (a b : xfloat) : xfloat := add a (opp b).

(** An infinity, positive when [positive] holds, times the real [y]. *)
Definition mul_inf (positive : bool) (y : R) : xfloat :=
  if Rlt_dec 0 y then (if positive then PInf else NInf)
  else if Rlt_dec y 0 then (if positive then NInf else PInf)
  else NaN.

Definition mul (a b : xfloat) : xfloat :=
  match a, b with
  | NaN, _ | _, NaN => NaN
  | Fin x, Fin y => of_real (x * y)
  | PInf, Fin y | Fin y, PInf => mul_inf true y
  | NInf, Fin y | Fin y, NInf => mul_inf false y
  | PInf, PInf | NInf, NInf => PInf
  | PInf, NInf | NInf, PInf => NInf
  end.

(** [a <= b]. *)
Definition leb (a b : xfloat) : bool :=
  match a, b with
  | NaN, _ | _, NaN => false
  | Fin x, Fin y => Rleb x y
  | NInf, _ => true
  | _, PInf => true
  | _, _ => false
  end.

(** Division of a sum by the number [n] of its terms. *)
Definition div_count (a : xfloat) (n : nat) : xfloat :=
  match a with
  | Fin x => Fin (x / INR n)
  | _ => a
  end.

Fixpoint insert_sorted (x : xfloat) (l : list xfloat) : list xfloat :=
  match l with
  | [] => [x]
  | y :: l' => if leb x y then x :: y :: l' else y :: insert_sorted x l'
  end.

Definition sort (a : list xfloat) : list xfloat :=
  fold_right insert_sorted [] a.

(** numpy's [_lerp]: [diff_b_a = b - a], then [a + diff_b_a * t], replaced
    by [b - diff_b_a * (1 - t)] where [t >= 0.5]. *)
Definition lerp (a b : xfloat) (t : R) : xfloat :=
  let diff_b_a := sub b a in
  if Rleb (1 / 2) t
  then sub b (mul diff_b_a (Fin (1 - t)))
  else add a (mul diff_b_a (Fin t)).

(** [np.percentile(a, q)], linear method, as [percentile] above; an array
    holding a NaN has the percentile NaN. *)
Definition percentile (a : list xfloat) (q : nat) : option xfloat :=
  match a with
  | [] => None
  | _ :: _ =>
      if existsb is_nan a then Some NaN
      else
        let n := List.length a in
        let sorted := sort a in
        let j := ((n - 1) * q / 100)%nat in
        let g := INR (((n - 1) * q) mod 100) / 100 in
        let previous := nth j sorted NaN in
        let next := nth (Nat.min (j + 1) (n - 1)) sorted NaN in
        Some (lerp previous next g)
  end.

(** [S_T[S_T <= v]]. *)
Definition mask_le (S_T : list xfloat) (v : xfloat) : list xfloat :=
  filter (fun x => leb x v) S_T.

Definition sum (a : list xfloat) : xfloat := fold_right add (Fin 0) a.

(** [a.mean()]; [None] stands for the mean of an empty slice, which numpy
    reports with a warning and returns as NaN. *)
Definition mean (a : list xfloat) : option xfloat :=
  match a with
  | [] => None
  | _ :: _ => Some (div_count (sum a) (List.length a))
  end.

(** [VaR_95 = np.percentile(S_T, 5)]. *)
Definition VaR_95 (S_T : list xfloat) : option xfloat := percentile S_T 5.

(** [ES_95 = S_T[S_T <= VaR_95].mean()]. *)
Definition ES_95 (S_T : list xfloat) (v : xfloat) : option xfloat :=
  mean (mask_le S_T v).

Definition risk_metrics (S_T : list xfloat)
  : option (xfloat * option xfloat) :=
  match VaR_95 S_T with
  | None => None
  | Some v => Some (v, ES_95 S_T v)
  end.

(** The sample the script holds once every simulated price has
    overflowed, as it does for a rate of 1000. *)
Definition overflowed_sample : list xfloat := [PInf; PInf; PInf].

(** "Explicitly guarded": where no sample is at or below the VaR of the
    sample, the result is not the mean of an empty slice. *)
Definition ES_guarded : Prop :=
  forall (S_T : list xfloat) (v : xfloat),
    VaR_95 S_T = Some v ->
    mask_le S_T v = [] ->
    ES_95 S_T v <> mean [].

(** "Expected Shortfall at most VaR, for any nonempty sample". *)
Definition ES_le_VaR_on_every_sample : Prop :=
  forall S_T : list xfloat,
    S_T <> [] ->
    exists v es,
      VaR_95 S_T = Some v /\ ES_95 S_T v = Some es /\ leb es v = true.

(** "For every nonempty sample some element is at or below the percentile,
    the tail is not empty and its mean is defined". *)
Definition tail_nonempty_on_every_sample : Prop :=
  forall S_T : list xfloat,
    S_T <> [] ->
    exists v,
      VaR_95 S_T = Some v
      /\ (exists x, In x S_T /\ leb x v = true)
      /\ mask_le S_T v <> []
      /\ exists es, ES_95 S_T v = Some es.

End Ext.

(** ** The price grid over binary64

    [np.linspace] and [get_price_range] once more, on the machine's
    floats: every operation rounds as the source's does. *)

Module F64.

Import PrimFloat.

(** The float of a natural number, as [arange] yields it. *)
Definition of_nat (n : nat) : float :=
  of_uint63 (Uint63.of_Z (Z.of_nat n)).

(** [np.linspace(start, stop, num)]: [delta = stop - start],
    [step = delta / div] with [div = num - 1]; [arange(0, num)] is
    multiplied by [step], or divided by [div] and multiplied by [delta]
    when [step] is zero; [start] is added and the last element is
    overwritten with [stop]. *)
Definition linspace (start stop : float) (num : nat) : list float :=
  let div := of_nat (num - 1) in
  let delta := sub stop start in
  let y := map of_nat (seq 0 num) in
  let y :=
    if (0 <? num - 1)%nat
    then
      let step := PrimFloat.div delta div in
      if eqb step zero
      then map (fun v => mul (PrimFloat.div v div) delta) y
      else map (fun v => mul v step) y
    else map (fun v => mul v delta) y in
  let y := map (fun v => add v start) y in
  if (1 <? num)%nat then removelast y ++ [stop] else y.

Definition get_price_range (S factor : float) : list float :=
  linspace (mul S (sub one factor)) (mul S (add one factor)) 100.

Fixpoint strictly_increasing (l : list float) : bool :=
  match l with
  | x :: (y :: _) as rest => ltb x y && strictly_increasing rest
  | _ => true
  end.

(** The float nearest to [1e-17]. *)
Definition tiny_factor : float := 0x1.70ef54646d497p-57%float.

Definition hundred : float := 100%float.

Definition half : float := 0.5%float.

Definition fifty : float := 50%float.

Definition hundred_fifty : float := 150%float.

(** "For every [S > 0] and [factor] in [(0, 1)] the grid is strictly
    increasing". *)
Definition always_strictly_increasing : Prop :=
  forall S factor : float,
    ltb zero S = true -> ltb zero factor = true -> ltb factor one = true ->
    strictly_increasing (get_price_range S factor) = true.

End F64.

(** ** Statements of the specification, in its own words *)

(** The sign of a leg: [+1] for a purchase, [-1] for a sale. *)
Definition sign (act : string) : R :=
  if String.eqb act "buy" then 1 else -1.

(** The payoff of one option at one terminal price. *)
Definition payoff_at (s K : R) (option_type : string) : R :=
  if String.eqb option_type "call" then Rmax (s - K) 0 else Rmax (K - s) 0.

(** Sum over the positions of payoff times sign times quantity. *)
Fixpoint gross_payoff (s : R) (positions : list position) : R :=
  match positions with
  | [] => 0
  | pos :: rest =>
      payoff_at s (strike pos) (type pos) * sign (action pos)
      * IZR (quantity pos)
      + gross_payoff s rest
  end.

(** Sum over the positions of premium times quantity times sign. *)
Fixpoint net_premium (positions : list position) : R :=
  match positions with
  | [] => 0
  | pos :: rest =>
      premium pos * IZR (quantity pos) * sign (action pos) + net_premium rest
  end.

(** A sequence with one common difference between neighbours. *)
Definition evenly_spaced (l : list R) (step : R) : Prop :=
  forall i, (S i < List.length l)%nat -> nth (S i) l 0 - nth i l 0 = step.

(** "Fresh randomness on every invocation": every call hands back the
    sample made from the next variates of the generator and leaves the
    generator past them. *)
Definition draws_fresh_on_every_call : Prop :=
  forall (a : mc_args) (w : world),
    snd (fst (monte_carlo_option a w))
    = map (terminal_price (arg_S a) (arg_T a) (arg_r a) (arg_sigma a))
        (fst (standard_normal (arg_simulations a) (snd w)))
    /\ snd (snd (monte_carlo_option a w))
       = snd (standard_normal (arg_simulations a) (snd w)).

(** The table of the decorator holds only results the body has produced. *)
Definition cache_sound (c : list (mc_args * (option R * list R))) : Prop :=
  forall a res,
    cache_lookup mc_args_eqb a c = Some res ->
    exists g, fst (monte_carlo_body a g) = res.

(** The states of a run: the decorator starts with an empty table, and
    every state comes from it by calls. *)
Inductive reachable : world -> Prop :=
| reachable_start (g : rng) : reachable ([], g)
| reachable_call (a : mc_args) (w : world) :
    reachable w -> reachable (snd (monte_carlo_option a w)).


(** The inputs the dashboard can pass without any intermediate result
    leaving the range of the floats: a maturity and a volatility of at
    least 0.01 and a rate that is not negative, as the widgets impose, a
    positive spot and strike, and nothing beyond [10^100] in size or below
    [10^-100]. *)
Definition bound : R := 10 ^ 100.

Definition dashboard_inputs (S K T r sigma : R) : Prop :=
  / bound <= S <= bound
  /\ / bound <= K <= bound
  /\ 0.01 <= T <= bound
  /\ 0 <= r <= bound
  /\ 0.01 <= sigma <= bound.

Definition dashboard_args (a : mc_args) : Prop :=
  dashboard_inputs (arg_S a) (arg_K a) (arg_T a) (arg_r a) (arg_sigma a).

(** Inputs at which the statements with hypotheses are instantiated. *)
Definition sample_args : mc_args :=
  {| arg_S := 100; arg_K := 100; arg_T := 1; arg_r := 0.05;
     arg_sigma := 0.2; arg_simulations := 3; arg_option_type := "call" |}.

Definition counting_rng : rng := fun i => INR i.

(** The table and the generator left by a first call on an empty table. *)
Definition world_after_first_call : world :=
  snd (monte_carlo_option sample_args ([], counting_rng)).

Definition covered_call : list position :=
  [ {| type := "call"; strike := 105; action := "sell"; quantity := 2;
       premium := 8 |} ].

(** ** The dashboard script ([main.py]) *)

Section Script.

Variable norm_cdf : R -> R.

(** The payoff diagram: the grid around the spot, the payoff of the option
    on it, and [profit_loss = payoff - bs_price]. *)
Definition payoff_diagram (S K T r sigma : R) (option_type : string)
  : list R * list R * list R :=
  let bs_price := black_scholes norm_cdf S K T r sigma option_type in
  let S_range := get_price_range S 0.5 in
  let payoff := option_payoff S_range K option_type in
  let profit_loss := Np.sub_scalar payoff bs_price in
  (S_range, payoff, profit_loss).

(** The one position handed to [strategy_payoff] by the strategy builder:
    a call sold at its Black-Scholes premium for "Covered Call", a put
    bought at its premium for anything else. *)
Definition builder_positions (strategy : string) (S T r sigma strike : R)
  (contracts : Z) : list position :=
  if String.eqb strategy "Covered Call"
  then
    let premium := black_scholes norm_cdf S strike T r sigma "call" in
    [ {| type := "call"; strike := strike; action := "sell";
         quantity := contracts; premium := premium |} ]
  else
    let premium := black_scholes norm_cdf S strike T r sigma "put" in
    [ {| type := "put"; strike := strike; action := "buy";
         quantity := contracts; premium := premium |} ].

(** The curve plotted by the strategy builder:
    [stock_pl = (S_range - S) * contracts * 100],
    [option_pl = strategy_payoff(S_range, positions) * 100] and
    [total_pl = stock_pl + option_pl]. *)
Definition builder_total_pl (strategy : string) (S T r sigma strike : R)
  (contracts : Z) : list R :=
  let S_range := get_price_range S 0.5 in
  let positions := builder_positions strategy S T r sigma strike contracts in
  let stock_pl :=
    Np.mul_scalar (Np.mul_scalar (Np.sub_scalar S_range S) (IZR contracts))
      100 in
  let option_pl := Np.mul_scalar (strategy_payoff S_range positions) 100 in
  Np.add stock_pl option_pl.

End Script.

(** A run of calls of [monte_carlo_option], one after the other. *)
Definition run_calls (calls : list mc_args) (w : world) : world :=
  fold_left (fun w b => snd (monte_carlo_option b w)) calls w.

(** The script from the simulation to the risk figures: the sample of
    [monte_carlo_option] goes into [risk_metrics]. *)
Definition simulate_risk (a : mc_args) (w : world)
  : option (R * option R) :=
  risk_metrics (snd (fst (monte_carlo_option a w))).

(** * Theorems *)

(** The range of the floats is large. *)
Lemma max_float_large : 1048576 <= max_float.
Proof.
  unfold max_float.
  assert (H52 : 0 < / 2 ^ 52 <= 1).
  { split; [apply Rinv_0_lt_compat, pow_lt; lra|].
    rewrite <- Rinv_1. apply Rinv_le_contravar; [lra|].
    apply pow_R1_Rle. lra. }
  assert (H1023 : 1048576 <= 2 ^ 1023).
  { replace 1048576 with (2 ^ 20) by (simpl; lra). apply Rle_pow; [lra|lia]. }
  set (e := / 2 ^ 52) in *. set (P := 2 ^ 1023) in *. nra.
Qed.

(** ** Payoff primitives *)

Lemma option_payoff_map (S_range : list R) (K : R) (option_type : string) :
  option_payoff S_range K option_type
  = map (fun s => payoff_at s K option_type) S_range.
Proof.
  unfold option_payoff, payoff_at, Np.maximum, Np.sub_scalar, Np.scalar_sub.
  destruct (String.eqb option_type "call"); rewrite map_map; reflexivity.
Qed.

Lemma Rmax_self_minus (K : R) : Rmax (K - K) 0 = 0.
Proof. replace (K - K) with 0 by ring. apply Rmax_left; lra. Qed.

(** C6: [option_payoff] keeps the length and the order of the grid, its
    element at a terminal price [S] is [max(S - K, 0)] for a call and
    [max(K - S, 0)] for a put; at [S = K] both are [0], and on the grid
    [50, 100, 150] with strike [100] the call pays [0, 0, 50] and the put
    [50, 0, 0]. *)
Theorem option_payoff_correct :
  forall (S_range : list R) (K : R),
    option_payoff S_range K "call" = map (fun s => Rmax (s - K) 0) S_range
    /\ option_payoff S_range K "put" = map (fun s => Rmax (K - s) 0) S_range
    /\ List.length (option_payoff S_range K "call") = List.length S_range
    /\ List.length (option_payoff S_range K "put") = List.length S_range
    /\ (forall i, (i < List.length S_range)%nat ->
          nth i (option_payoff S_range K "call") 0
          = Rmax (nth i S_range 0 - K) 0
          /\ nth i (option_payoff S_range K "put") 0
             = Rmax (K - nth i S_range 0) 0)
    /\ option_payoff [K] K "call" = [0]
    /\ option_payoff [K] K "put" = [0]
    /\ option_payoff [50; 100; 150] 100 "call" = [0; 0; 50]
    /\ option_payoff [50; 100; 150] 100 "put" = [50; 0; 0].
Proof.
  intros S_range K.
  assert (Hc : option_payoff S_range K "call"
               = map (fun s => Rmax (s - K) 0) S_range)
    by (rewrite option_payoff_map; reflexivity).
  assert (Hp : option_payoff S_range K "put"
               = map (fun s => Rmax (K - s) 0) S_range)
    by (rewrite option_payoff_map; reflexivity).
  repeat split.
  - exact Hc.
  - exact Hp.
  - rewrite Hc; apply length_map.
  - rewrite Hp; apply length_map.
  - rewrite Hc.
    rewrite (nth_indep _ 0 (Rmax (0 - K) 0)) by (rewrite length_map; lia).
    rewrite (map_nth (fun s => Rmax (s - K) 0)).
    reflexivity.
  - rewrite Hp.
    rewrite (nth_indep _ 0 (Rmax (K - 0) 0)) by (rewrite length_map; lia).
    rewrite (map_nth (fun s => Rmax (K - s) 0)).
    reflexivity.
  - rewrite option_payoff_map; cbn. rewrite Rmax_self_minus. reflexivity.
  - rewrite option_payoff_map; cbn. rewrite Rmax_self_minus. reflexivity.
  - rewrite option_payoff_map; cbn.
    rewrite (Rmax_right (50 - 100) 0) by lra.
    rewrite (Rmax_right (100 - 100) 0) by lra.
    rewrite (Rmax_left (150 - 100) 0) by lra.
    repeat f_equal; lra.
  - rewrite option_payoff_map; cbn.
    rewrite (Rmax_left (100 - 50) 0) by lra.
    rewrite (Rmax_right (100 - 100) 0) by lra.
    rewrite (Rmax_right (100 - 150) 0) by lra.
    repeat f_equal; lra.
Qed.

Lemma multiplier_sign (pos : position) :
  IZR (multiplier pos) = IZR (quantity pos) * sign (action pos).
Proof.
  unfold multiplier, sign. rewrite mult_IZR.
  destruct (String.eqb (action pos) "buy"); reflexivity.
Qed.

(** Adding a scaled payoff array to an array computed pointwise from the
    grid gives again an array computed pointwise from the grid. *)
Lemma add_scaled_payoff (f : R -> R) (m K : R) (ty : string)
  (S_range : list R) :
  Np.add (map f S_range) (Np.scale m (option_payoff S_range K ty))
  = map (fun s => f s + m * payoff_at s K ty) S_range.
Proof.
  rewrite option_payoff_map. unfold Np.scale. rewrite map_map.
  induction S_range as [|s rest IH]; cbn; [reflexivity|].
  rewrite IH. reflexivity.
Qed.

(** The invariant of the loop of [strategy_payoff]. *)
Lemma strategy_loop (S_range : list R) (positions : list position) :
  forall (f : R -> R) (c : R),
    fold_left (strategy_step S_range) positions (map f S_range, c)
    = (map (fun s => f s + gross_payoff s positions) S_range,
       c + net_premium positions).
Proof.
  induction positions as [|pos rest IH]; intros f c; cbn [fold_left].
  - cbn. f_equal; [|ring]. apply map_ext; intros; ring.
  - unfold strategy_step at 2. cbn [fst snd].
    rewrite add_scaled_payoff, IH. f_equal.
    + apply map_ext; intros s. cbn [gross_payoff].
      rewrite multiplier_sign. ring.
    + cbn [net_premium]. rewrite multiplier_sign. ring.
Qed.

(** The loop of the source computes the pointwise formula. *)
Lemma strategy_payoff_pointwise (grid : list R) (positions : list position) :
  strategy_payoff grid positions
  = map (fun s => gross_payoff s positions - net_premium positions) grid.
Proof.
  unfold strategy_payoff, Np.zeros_like.
  rewrite strategy_loop. cbn [fst snd]. unfold Np.sub_scalar.
  rewrite map_map. apply map_ext; intros s. ring.
Qed.

(** A covered call written twice at strike 105 for a premium of 8: at the
    price 100 the calls expire worthless and the premium of 16 is kept, at
    110 they cost 10 of it. *)
Example strategy_payoff_example :
  strategy_payoff [100; 110] covered_call = [16; 6].
Proof.
  rewrite strategy_payoff_pointwise. unfold covered_call.
  cbn [map gross_payoff net_premium type strike action quantity premium].
  unfold payoff_at, sign. cbn [String.eqb Ascii.eqb Bool.eqb].
  rewrite (Rmax_right (100 - 105) 0) by lra.
  rewrite (Rmax_left (110 - 105) 0) by lra.
  repeat f_equal; lra.
Qed.

(** C5: at each grid point [strategy_payoff] is the sum over the positions
    of payoff times sign ([+1] for 'buy', [-1] for 'sell') times quantity,
    minus the net premium, which does not depend on the grid point; with no
    position it is all zeros, as long as the grid. *)
Theorem strategy_payoff_correct :
  forall (grid : list R) (positions : list position),
    strategy_payoff grid positions
    = map (fun s => gross_payoff s positions - net_premium positions) grid
    /\ sign "buy" = 1 /\ sign "sell" = -1
    /\ strategy_payoff grid [] = repeat 0 (List.length grid).
Proof.
  intros grid positions. repeat apply conj.
  - apply strategy_payoff_pointwise.
  - reflexivity.
  - reflexivity.
  - rewrite strategy_payoff_pointwise. cbn [gross_payoff net_premium].
    induction grid as [|s rest IH]; cbn; [reflexivity|].
    rewrite IH. f_equal. ring.
Qed.

(** ** Analytic pricer *)

Lemma norm_pdf_pos (x : R) : 0 < norm_pdf x.
Proof.
  unfold norm_pdf. apply Rdiv_lt_0_compat.
  - apply exp_pos.
  - apply sqrt_lt_R0. pose proof PI_RGT_0. lra.
Qed.

Lemma logistic_cdf_range (x : R) : 0 <= logistic_cdf x <= 1.
Proof.
  unfold logistic_cdf. pose proof (exp_pos (- x)) as He.
  split.
  - apply Rlt_le, Rdiv_lt_0_compat; lra.
  - unfold Rdiv. rewrite Rmult_1_l. rewrite <- Rinv_1 at 2.
    apply Rinv_le_contravar; lra.
Qed.

Lemma logistic_cdf_symmetry (x : R) : logistic_cdf (- x) = 1 - logistic_cdf x.
Proof.
  unfold logistic_cdf. rewrite Ropp_involutive, exp_Ropp.
  pose proof (exp_pos x) as He. field. split; lra.
Qed.

Section AnalyticPricerProperties.

Variable norm_cdf : R -> R.

(** The two properties of the standard normal distribution function on
    which the statements rest. *)
Hypothesis norm_cdf_range : forall x, 0 <= norm_cdf x <= 1.
Hypothesis norm_cdf_symmetry : forall x, norm_cdf (- x) = 1 - norm_cdf x.



End AnalyticPricerProperties.



(** ** Price grid *)

(** With at least two points, [linspace] is the arithmetic progression up
    to the last point but one, followed by [stop]. *)
Lemma linspace_unfold (start stop : R) (m : nat) :
  linspace start stop (S (S m))
  = map (fun i => INR i * ((stop - start) / INR (S m)) + start)
      (seq 0 (S m))
    ++ [stop].
Proof.
  unfold linspace.
  replace (S (S m) - 1)%nat with (S m) by lia.
  replace (1 <? S (S m))%nat with true by (symmetry; apply Nat.ltb_lt; lia).
  rewrite (seq_S (S m) 0), map_app. cbn [map].
  rewrite removelast_last. reflexivity.
Qed.

Lemma linspace_length (start stop : R) (m : nat) :
  List.length (linspace start stop (S (S m))) = S (S m).
Proof.
  rewrite linspace_unfold, length_app, length_map, length_seq. cbn. lia.
Qed.

(** Every point of the grid, the last one included, lies on the
    progression. *)
Lemma linspace_nth (start stop : R) (m i : nat) :
  (i <= S m)%nat ->
  nth i (linspace start stop (S (S m))) 0
  = start + INR i * ((stop - start) / INR (S m)).
Proof.
  intros Hi. rewrite linspace_unfold.
  set (f := fun i => INR i * ((stop - start) / INR (S m)) + start).
  destruct (Nat.eq_dec i (S m)) as [->|Hne].
  - rewrite app_nth2 by (rewrite length_map, length_seq; lia).
    rewrite length_map, length_seq, Nat.sub_diag. cbn [nth].
    assert (INR (S m) <> 0) by (apply not_0_INR; lia).
    field. assumption.
  - rewrite app_nth1 by (rewrite length_map, length_seq; lia).
    rewrite (nth_indep _ 0 (f 0%nat)) by (rewrite length_map, length_seq; lia).
    rewrite (map_nth f), seq_nth by lia.
    unfold f. cbn [Nat.add]. ring.
Qed.

Lemma linspace_evenly_spaced (start stop : R) (m : nat) :
  evenly_spaced (linspace start stop (S (S m)))
    ((stop - start) / INR (S m)).
Proof.
  intros i Hi. rewrite linspace_length in Hi.
  rewrite !linspace_nth by lia. rewrite S_INR. ring.
Qed.

Lemma linspace_nondecreasing (start stop : R) (m : nat) :
  start <= stop ->
  forall i j, (i <= j <= S m)%nat ->
    nth i (linspace start stop (S (S m))) 0
    <= nth j (linspace start stop (S (S m))) 0.
Proof.
  intros Hle i j Hij. rewrite !linspace_nth by lia.
  assert (Hstep : 0 <= (stop - start) / INR (S m)).
  { apply Rmult_le_pos; [lra|].
    apply Rlt_le, Rinv_0_lt_compat, lt_0_INR. lia. }
  assert (Hinr : INR i <= INR j) by (apply le_INR; lia).
  nra.
Qed.

(** On binary64, with at least two points, [linspace] is a list of
    [num - 1] computed points followed by [stop] itself. *)
Lemma F64_linspace_unfold (start stop : PrimFloat.float) (m : nat) :
  exists f : nat -> PrimFloat.float,
    F64.linspace start stop (S (S m)) = map f (seq 0 (S m)) ++ [stop].
Proof.
  unfold F64.linspace.
  replace (S (S m) - 1)%nat with (S m) by lia.
  replace (0 <? S m)%nat with true by (symmetry; apply Nat.ltb_lt; lia).
  replace (1 <? S (S m))%nat with true by (symmetry; apply Nat.ltb_lt; lia).
  cbv zeta.
  destruct (PrimFloat.eqb _ PrimFloat.zero);
    rewrite !map_map, (seq_S (S m) 0), map_app; cbn [map];
    rewrite removelast_last; eexists; reflexivity.
Qed.

Lemma F64_get_price_range_shape (S factor : PrimFloat.float) :
  List.length (F64.get_price_range S factor) = 100%nat
  /\ last (F64.get_price_range S factor) PrimFloat.nan
     = PrimFloat.mul S (PrimFloat.add PrimFloat.one factor).
Proof.
  unfold F64.get_price_range.
  change 100%nat with (Datatypes.S (Datatypes.S 98)) at 1 2.
  destruct (F64_linspace_unfold
              (PrimFloat.mul S (PrimFloat.sub PrimFloat.one factor))
              (PrimFloat.mul S (PrimFloat.add PrimFloat.one factor)) 98)
    as [f ->].
  split.
  - rewrite length_app, length_map, length_seq. reflexivity.
  - apply last_last.
Qed.

(** C7, as the code has it: for [S > 0] and [factor] in [(0, 1)], with
    the upper end [S * (1 + factor)] in the range of the floats,
    [get_price_range] returns exactly 100 points, the last of them
    [S * (1 + factor)] itself; in exact arithmetic the first is
    [S * (1 - factor)] and the points are evenly spaced and never
    decrease.  On binary64 the grid has 100 points ending in
    [S * (1 + factor)] whatever the arguments, and the grid of
    [get_price_range(100, 0.5)] runs from 50 to 150 and is strictly
    increasing. *)
Theorem get_price_range_grid :
  forall S factor : R,
    0 < S -> 0 < factor < 1 -> S * (1 + factor) <= max_float ->
    List.length (get_price_range S factor) = 100%nat
    /\ nth 0 (get_price_range S factor) 0 = S * (1 - factor)
    /\ last (get_price_range S factor) 0 = S * (1 + factor)
    /\ evenly_spaced (get_price_range S factor)
         ((S * (1 + factor) - S * (1 - factor)) / 99)
    /\ (forall i j, (i <= j < 100)%nat ->
          nth i (get_price_range S factor) 0
          <= nth j (get_price_range S factor) 0)
    /\ (forall S' factor' : PrimFloat.float,
          List.length (F64.get_price_range S' factor') = 100%nat
          /\ last (F64.get_price_range S' factor') PrimFloat.nan
             = PrimFloat.mul S' (PrimFloat.add PrimFloat.one factor'))
    /\ PrimFloat.eqb
         (nth 0 (F64.get_price_range F64.hundred F64.half) PrimFloat.nan)
         F64.fifty = true
    /\ PrimFloat.eqb
         (last (F64.get_price_range F64.hundred F64.half) PrimFloat.nan)
         F64.hundred_fifty = true
    /\ F64.strictly_increasing (F64.get_price_range F64.hundred F64.half)
       = true.
Proof.
  assert (H99 : INR 99 = 99) by (rewrite INR_IZR_INZ; reflexivity).
  intros S factor HS Hf _.
  repeat apply conj.
  - apply (linspace_length _ _ 98).
  - unfold get_price_range.
    change 100%nat with (Datatypes.S (Datatypes.S 98)).
    rewrite linspace_nth by lia. cbn [INR]. ring.
  - unfold get_price_range.
    change 100%nat with (Datatypes.S (Datatypes.S 98)).
    rewrite linspace_unfold. apply last_last.
  - rewrite <- H99. apply (linspace_evenly_spaced _ _ 98).
  - intros i j Hij. apply (linspace_nondecreasing _ _ 98); [nra|lia].
  - intros S' factor'. apply F64_get_price_range_shape.
  - vm_compute. reflexivity.
  - vm_compute. reflexivity.
  - vm_compute. reflexivity.
Qed.

Lemma get_price_range_grid_witness :
  List.length (get_price_range 100 0.5) = 100%nat
  /\ nth 0 (get_price_range 100 0.5) 0 = 100 * (1 - 0.5)
  /\ last (get_price_range 100 0.5) 0 = 100 * (1 + 0.5)
  /\ evenly_spaced (get_price_range 100 0.5)
       ((100 * (1 + 0.5) - 100 * (1 - 0.5)) / 99)
  /\ (forall i j, (i <= j < 100)%nat ->
        nth i (get_price_range 100 0.5) 0 <= nth j (get_price_range 100 0.5) 0)
  /\ (forall S' factor' : PrimFloat.float,
        List.length (F64.get_price_range S' factor') = 100%nat
        /\ last (F64.get_price_range S' factor') PrimFloat.nan
           = PrimFloat.mul S' (PrimFloat.add PrimFloat.one factor'))
  /\ PrimFloat.eqb
       (nth 0 (F64.get_price_range F64.hundred F64.half) PrimFloat.nan)
       F64.fifty = true
  /\ PrimFloat.eqb
       (last (F64.get_price_range F64.hundred F64.half) PrimFloat.nan)
       F64.hundred_fifty = true
  /\ F64.strictly_increasing (F64.get_price_range F64.hundred F64.half)
     = true.
Proof.
  pose proof max_float_large.
  apply (get_price_range_grid 100 0.5); lra.
Defined.

(** C7, as the specification words it, fails: for the spot 100 and the
    factor 1e-17, which lies in (0, 1), both [1 - factor] and [1 + factor]
    round to 1, every one of the 100 points is 100, and the grid is not
    strictly increasing. *)
Lemma get_price_range_increasing_counterexample :
  PrimFloat.ltb PrimFloat.zero F64.hundred = true
  /\ PrimFloat.ltb PrimFloat.zero F64.tiny_factor = true
  /\ PrimFloat.ltb F64.tiny_factor PrimFloat.one = true
  /\ forallb (fun x => PrimFloat.eqb x F64.hundred)
       (F64.get_price_range F64.hundred F64.tiny_factor) = true
  /\ F64.strictly_increasing (F64.get_price_range F64.hundred F64.tiny_factor)
     = false
  /\ ~ F64.always_strictly_increasing.
Proof.
  assert (Hnot : F64.strictly_increasing
                   (F64.get_price_range F64.hundred F64.tiny_factor) = false)
    by (vm_compute; reflexivity).
  repeat apply conj; try (vm_compute; reflexivity).
  intros Hall.
  rewrite (Hall F64.hundred F64.tiny_factor) in Hnot;
    [discriminate Hnot| | |]; vm_compute; reflexivity.
Qed.

(** ** Risk statistics *)

Lemma Rleb_le (x y : R) : Rleb x y = true <-> x <= y.
Proof.
  unfold Rleb. destruct (Rle_dec x y); split; intros; try assumption;
    try reflexivity; try discriminate; contradiction.
Qed.

Lemma Rleb_gt (x y : R) : Rleb x y = false <-> y < x.
Proof.
  unfold Rleb. destruct (Rle_dec x y); split; intros; try discriminate;
    try reflexivity; lra.
Qed.

Lemma insert_sorted_In (x y : R) (l : list R) :
  In y (insert_sorted x l) <-> y = x \/ In y l.
Proof.
  induction l as [|z l IH]; cbn.
  - intuition.
  - destruct (Rleb x z); cbn; [intuition|]. rewrite IH. intuition.
Qed.

Lemma insert_sorted_length (x : R) (l : list R) :
  List.length (insert_sorted x l) = S (List.length l).
Proof.
  induction l as [|z l IH]; cbn; [reflexivity|].
  destruct (Rleb x z); cbn; [reflexivity|]. rewrite IH. reflexivity.
Qed.

Lemma insert_sorted_Sorted (x : R) (l : list R) :
  StronglySorted Rle l -> StronglySorted Rle (insert_sorted x l).
Proof.
  induction 1 as [|z l Hl IH Hz]; cbn.
  - repeat constructor.
  - destruct (Rleb x z) eqn:Hxz.
    + apply Rleb_le in Hxz. constructor; [constructor; assumption|].
      constructor; [assumption|].
      eapply Forall_impl; [|exact Hz]. cbn; intros; lra.
    + apply Rleb_gt in Hxz. constructor; [assumption|].
      apply Forall_forall. intros y Hy. apply insert_sorted_In in Hy.
      destruct Hy as [->|Hy]; [lra|].
      rewrite Forall_forall in Hz. auto.
Qed.

Lemma sort_cons (x : R) (a : list R) :
  sort (x :: a) = insert_sorted x (sort a).
Proof. reflexivity. Qed.

Lemma sort_In (a : list R) (y : R) : In y (sort a) <-> In y a.
Proof.
  induction a as [|x a IH]; [reflexivity|].
  rewrite sort_cons, insert_sorted_In, IH. cbn. intuition.
Qed.

Lemma sort_length (a : list R) : List.length (sort a) = List.length a.
Proof.
  induction a as [|x a IH]; [reflexivity|].
  rewrite sort_cons, insert_sorted_length, IH. reflexivity.
Qed.

Lemma sort_Sorted (a : list R) : StronglySorted Rle (sort a).
Proof.
  induction a as [|x a IH]; [constructor|].
  rewrite sort_cons. apply insert_sorted_Sorted, IH.
Qed.

(** In a sorted array the elements grow with the index. *)
Lemma sorted_nth_le (l : list R) :
  StronglySorted Rle l ->
  forall i j, (i <= j < List.length l)%nat -> nth i l 0 <= nth j l 0.
Proof.
  induction 1 as [|z l Hl IH Hz]; intros i j Hij; cbn in Hij; [lia|].
  destruct i as [|i], j as [|j]; cbn [nth]; try lia.
  - lra.
  - rewrite Forall_forall in Hz. apply Hz, nth_In. lia.
  - apply IH. lia.
Qed.

(** The percentile of a nonempty array exists and is at least the first
    element of the sorted array, which is an element of the array. *)
Lemma percentile_lower_bound (a : list R) (q : nat) :
  a <> [] -> (q <= 100)%nat ->
  exists v, percentile a q = Some v
            /\ In (nth 0 (sort a) 0) a
            /\ nth 0 (sort a) 0 <= v.
Proof.
  intros Ha Hq. destruct a as [|x a]; [contradiction|].
  set (s := x :: a) in *.
  unfold percentile. fold s.
  set (n := List.length s).
  set (j := ((n - 1) * q / 100)%nat).
  set (g := INR (((n - 1) * q) mod 100) / 100).
  assert (Hn : (0 < n)%nat) by (unfold n, s; cbn; lia).
  eexists. split; [reflexivity|]. split.
  - apply sort_In, nth_In. rewrite sort_length. exact Hn.
  - pose proof (sort_Sorted s) as Hs.
    assert (Hlen : List.length (sort s) = n) by apply sort_length.
    set (j' := Nat.min (j + 1) (n - 1)).
    assert (Hmod : (((n - 1) * q) mod 100 < 100)%nat)
      by (apply Nat.mod_upper_bound; lia).
    assert (Hg : 0 <= g < 1).
    { unfold g. pose proof (pos_INR (((n - 1) * q) mod 100)) as H0.
      apply lt_INR in Hmod.
      replace (INR 100) with 100 in Hmod
        by (rewrite INR_IZR_INZ; reflexivity).
      lra. }
    assert (Hj : (j <= n - 1)%nat).
    { unfold j. apply Nat.Div0.div_le_upper_bound. nia. }
    assert (H0j : nth 0 (sort s) 0 <= nth j (sort s) 0)
      by (apply sorted_nth_le; [assumption|lia]).
    assert (Hjj : nth j (sort s) 0 <= nth j' (sort s) 0)
      by (apply sorted_nth_le; [assumption|unfold j'; lia]).
    unfold lerp. destruct (Rleb (1 / 2) g); nra.
Qed.

(** The tail of a nonempty sample at its 5th percentile holds the smallest
    element of the sample. *)
Lemma VaR_95_tail (S_T : list R) :
  S_T <> [] ->
  exists v,
    VaR_95 S_T = Some v
    /\ In (nth 0 (sort S_T) 0) S_T
    /\ nth 0 (sort S_T) 0 <= v
    /\ In (nth 0 (sort S_T) 0) (filter (fun x => Rleb x v) S_T).
Proof.
  intros Hne.
  destruct (percentile_lower_bound S_T 5 Hne) as (v & Hv & Hin & Hle);
    [lia|].
  exists v. repeat apply conj; try assumption.
  apply filter_In. split; [assumption|].
  unfold Rleb. destruct (Rle_dec (nth 0 (sort S_T) 0) v);
    [reflexivity|contradiction].
Qed.

Lemma mask_le_In (S_T : list R) (v x : R) :
  In x (mask_le S_T v) <-> In x S_T /\ x <= v.
Proof. unfold mask_le. rewrite filter_In, Rleb_le. reflexivity. Qed.

Lemma mean_of_nonempty (a : list R) :
  a <> [] -> Np.mean a = Some (Np.sum a / INR (List.length a)).
Proof. destruct a; [contradiction|reflexivity]. Qed.

Lemma mean_None (a : list R) : Np.mean a = None <-> a = [].
Proof. destruct a; cbn; split; intros; try reflexivity; discriminate. Qed.

(** A sum of terms none above [v] is at most [v] times their number. *)
Lemma sum_le_bound (a : list R) (v : R) :
  (forall x, In x a -> x <= v) -> Np.sum a <= INR (List.length a) * v.
Proof.
  induction a as [|x a IH]; intros Hb.
  - cbn. lra.
  - cbn [Np.sum fold_right List.length]. rewrite S_INR.
    assert (Hx : x <= v) by (apply Hb; left; reflexivity).
    assert (Ha : Np.sum a <= INR (List.length a) * v)
      by (apply IH; intros y Hy; apply Hb; right; exact Hy).
    unfold Np.sum in Ha. lra.
Qed.

Lemma mean_le_bound (a : list R) (v m : R) :
  (forall x, In x a -> x <= v) -> Np.mean a = Some m -> m <= v.
Proof.
  intros Hb Hm.
  assert (Hne : a <> []) by (intros ->; discriminate).
  rewrite (mean_of_nonempty _ Hne) in Hm. injection Hm as <-.
  assert (Hn : 0 < INR (List.length a)).
  { apply lt_0_INR. destruct a; [contradiction|cbn; lia]. }
  pose proof (sum_le_bound a v Hb) as Hs.
  apply Rmult_le_reg_r with (INR (List.length a)); [exact Hn|].
  replace (Np.sum a / INR (List.length a) * INR (List.length a))
    with (Np.sum a) by (field; lra).
  lra.
Qed.

(** *** Samples of finite prices over the extended floats

    On a sample of finite prices that are not negative the risk lines over
    the extended floats compute what they compute over the reals, as long
    as no sum leaves the range of the floats. *)

Lemma Ext_of_real_Fin (x : R) :
  - max_float <= x <= max_float -> Ext.of_real x = Ext.Fin x.
Proof.
  intros Hx. unfold Ext.of_real.
  destruct (Rlt_dec max_float x); [lra|].
  destruct (Rlt_dec x (- max_float)); [lra|reflexivity].
Qed.

Lemma Ext_bounded_list (l : list Ext.xfloat) (hi : R) :
  (forall x, In x l -> exists p, x = Ext.Fin p /\ 0 <= p <= hi) ->
  exists xs, l = map Ext.Fin xs /\ forall p, In p xs -> 0 <= p <= hi.
Proof.
  induction l as [|a l IH]; intros H.
  - exists []. split; [reflexivity|]. intros p [].
  - destruct (H a (or_introl eq_refl)) as (p & -> & Hp).
    destruct IH as (xs & -> & Hxs).
    { intros x Hx. apply H. right. exact Hx. }
    exists (p :: xs). split; [reflexivity|].
    intros q [<-|Hq]; [exact Hp|apply Hxs, Hq].
Qed.

Lemma Ext_no_nan (xs : list R) :
  existsb Ext.is_nan (map Ext.Fin xs) = false.
Proof. induction xs as [|x xs IH]; cbn; [reflexivity|exact IH]. Qed.

Lemma Ext_insert_sorted_Fin (x : R) (l : list R) :
  Ext.insert_sorted (Ext.Fin x) (map Ext.Fin l)
  = map Ext.Fin (insert_sorted x l).
Proof.
  induction l as [|y l IH]; cbn; [reflexivity|].
  destruct (Rleb x y); cbn; [reflexivity|]. rewrite IH. reflexivity.
Qed.

Lemma Ext_sort_Fin (xs : list R) :
  Ext.sort (map Ext.Fin xs) = map Ext.Fin (sort xs).
Proof.
  induction xs as [|x xs IH]; [reflexivity|].
  rewrite sort_cons, <- Ext_insert_sorted_Fin, <- IH. reflexivity.
Qed.

(** Between two prices in the range, the lower first, the interpolation
    stays in the range. *)
Lemma Ext_lerp_Fin (a b t : R) :
  0 <= a -> a <= b -> b <= max_float -> 0 <= t <= 1 ->
  Ext.lerp (Ext.Fin a) (Ext.Fin b) t = Ext.Fin (lerp a b t).
Proof.
  intros Ha Hab Hb Ht. pose proof max_float_large as HM.
  assert (Hd : Ext.sub (Ext.Fin b) (Ext.Fin a) = Ext.Fin (b - a)).
  { unfold Ext.sub. cbn [Ext.opp Ext.add].
    rewrite Ext_of_real_Fin by lra. reflexivity. }
  unfold Ext.lerp, lerp. rewrite Hd.
  destruct (Rleb (1 / 2) t).
  - cbn [Ext.mul].
    rewrite (Ext_of_real_Fin ((b - a) * (1 - t))) by (split; nra).
    unfold Ext.sub. cbn [Ext.opp Ext.add].
    rewrite Ext_of_real_Fin by (split; nra). reflexivity.
  - cbn [Ext.mul].
    rewrite (Ext_of_real_Fin ((b - a) * t)) by (split; nra).
    cbn [Ext.add]. rewrite Ext_of_real_Fin by (split; nra). reflexivity.
Qed.

Lemma Ext_nth_Fin (l : list R) (j : nat) :
  (j < List.length l)%nat ->
  nth j (map Ext.Fin l) Ext.NaN = Ext.Fin (nth j l 0).
Proof.
  intros Hj.
  rewrite (nth_indep _ Ext.NaN (Ext.Fin 0)) by (rewrite length_map; exact Hj).
  apply map_nth.
Qed.

Lemma Ext_percentile_Fin (xs : list R) (q : nat) (hi : R) :
  (q <= 100)%nat -> hi <= max_float ->
  (forall p, In p xs -> 0 <= p <= hi) ->
  Ext.percentile (map Ext.Fin xs) q = option_map Ext.Fin (percentile xs q).
Proof.
  intros Hq Hhi Hb. destruct xs as [|x xs]; [reflexivity|].
  set (s := x :: xs) in *.
  unfold Ext.percentile, percentile. fold s.
  change (map Ext.Fin s) with (Ext.Fin x :: map Ext.Fin xs) at 1.
  cbv iota. rewrite Ext_no_nan, length_map, Ext_sort_Fin.
  set (n := List.length s).
  set (j := ((n - 1) * q / 100)%nat).
  set (g := INR (((n - 1) * q) mod 100) / 100).
  assert (Hn : (0 < n)%nat) by (unfold n, s; cbn; lia).
  assert (Hj : (j <= n - 1)%nat)
    by (apply Nat.Div0.div_le_upper_bound; nia).
  assert (Hlen : List.length (sort s) = n) by apply sort_length.
  rewrite !Ext_nth_Fin by lia.
  cbn [option_map].
  assert (Hmod : (((n - 1) * q) mod 100 < 100)%nat)
    by (apply Nat.mod_upper_bound; lia).
  assert (Hg : 0 <= g <= 1).
  { unfold g. pose proof (pos_INR (((n - 1) * q) mod 100)) as H0.
    apply lt_INR in Hmod.
    replace (INR 100) with 100 in Hmod
      by (rewrite INR_IZR_INZ; reflexivity).
    lra. }
  assert (Hprev : 0 <= nth j (sort s) 0 <= hi)
    by (apply Hb, sort_In, nth_In; lia).
  assert (Hnext : 0 <= nth (Nat.min (j + 1) (n - 1)) (sort s) 0 <= hi)
    by (apply Hb, sort_In, nth_In; lia).
  assert (Hord : nth j (sort s) 0 <= nth (Nat.min (j + 1) (n - 1)) (sort s) 0)
    by (apply sorted_nth_le; [apply sort_Sorted|lia]).
  rewrite Ext_lerp_Fin by lra. reflexivity.
Qed.

Lemma Ext_mask_le_Fin (xs : list R) (v : R) :
  Ext.mask_le (map Ext.Fin xs) (Ext.Fin v) = map Ext.Fin (mask_le xs v).
Proof.
  unfold Ext.mask_le, mask_le.
  induction xs as [|x xs IH]; cbn; [reflexivity|].
  destruct (Rleb x v); cbn; rewrite IH; reflexivity.
Qed.

(** A sum of prices that cannot leave the range is the real sum. *)
Lemma Ext_sum_Fin (xs : list R) (hi : R) :
  (forall p, In p xs -> 0 <= p <= hi) ->
  INR (List.length xs) * hi <= max_float ->
  Ext.sum (map Ext.Fin xs) = Ext.Fin (Np.sum xs)
  /\ 0 <= Np.sum xs <= INR (List.length xs) * hi.
Proof.
  pose proof max_float_large as HM.
  induction xs as [|x xs IH]; intros Hb Hn.
  - cbn. split; [reflexivity|lra].
  - assert (Hx : 0 <= x <= hi) by (apply Hb; left; reflexivity).
    cbn [List.length] in Hn. rewrite S_INR in Hn.
    pose proof (pos_INR (List.length xs)) as Hlen.
    destruct IH as [IHs IHb].
    { intros p Hp. apply Hb. right. exact Hp. }
    { nra. }
    cbn [map Ext.sum fold_right]. fold (Ext.sum (map Ext.Fin xs)).
    rewrite IHs. cbn [Ext.add Np.sum fold_right List.length].
    fold (Np.sum xs). rewrite S_INR.
    rewrite Ext_of_real_Fin by (split; nra).
    split; [reflexivity|nra].
Qed.

Lemma Ext_mean_Fin (xs : list R) (hi : R) :
  (forall p, In p xs -> 0 <= p <= hi) ->
  INR (List.length xs) * hi <= max_float ->
  Ext.mean (map Ext.Fin xs) = option_map Ext.Fin (Np.mean xs).
Proof.
  intros Hb Hn. destruct (Ext_sum_Fin xs hi Hb Hn) as [Hs _].
  destruct xs as [|x xs]; [reflexivity|].
  set (s := x :: xs) in *.
  change (map Ext.Fin s) with (Ext.Fin x :: map Ext.Fin xs).
  unfold Ext.mean, Np.mean. fold s.
  change (Ext.Fin x :: map Ext.Fin xs) with (map Ext.Fin s).
  rewrite Hs, length_map. reflexivity.
Qed.

(** A sum of prices that are not negative is a price or has overflowed;
    it is never NaN. *)
Lemma Ext_sum_no_nan (xs : list R) :
  (forall p, In p xs -> 0 <= p) ->
  (exists t, 0 <= t /\ Ext.sum (map Ext.Fin xs) = Ext.Fin t)
  \/ Ext.sum (map Ext.Fin xs) = Ext.PInf.
Proof.
  pose proof max_float_large as HM.
  induction xs as [|x xs IH]; intros Hb.
  - left. exists 0. split; [lra|reflexivity].
  - assert (Hx : 0 <= x) by (apply Hb; left; reflexivity).
    cbn [map Ext.sum fold_right]. fold (Ext.sum (map Ext.Fin xs)).
    destruct IH as [(t & Ht & ->)| ->].
    { intros p Hp. apply Hb. right. exact Hp. }
    + cbn [Ext.add]. unfold Ext.of_real.
      destruct (Rlt_dec max_float (x + t)); [right; reflexivity|].
      destruct (Rlt_dec (x + t) (- max_float)); [lra|].
      left. exists (x + t). split; [lra|reflexivity].
    + right. reflexivity.
Qed.

(** The mean of a nonempty slice of prices that are not negative has a
    value, a price or an infinity. *)
Lemma Ext_mean_no_nan (ys : list R) :
  ys <> [] ->
  (forall p, In p ys -> 0 <= p) ->
  exists es, Ext.mean (map Ext.Fin ys) = Some es /\ Ext.is_nan es = false.
Proof.
  intros Hne Hpos. destruct (Ext_sum_no_nan ys Hpos) as [(t & _ & Hs)|Hs];
    destruct ys as [|y l]; try contradiction;
    change (map Ext.Fin (y :: l)) with (Ext.Fin y :: map Ext.Fin l);
    unfold Ext.mean;
    change (Ext.Fin y :: map Ext.Fin l) with (map Ext.Fin (y :: l));
    rewrite Hs; eexists; split; reflexivity.
Qed.

(** The percentile and the tail of a nonempty sample of prices in the
    range. *)
Lemma Ext_VaR_tail (xs : list R) (hi : R) :
  xs <> [] -> hi <= max_float ->
  (forall p, In p xs -> 0 <= p <= hi) ->
  exists v : R,
    Ext.VaR_95 (map Ext.Fin xs) = Some (Ext.Fin v)
    /\ In (nth 0 (sort xs) 0) xs
    /\ nth 0 (sort xs) 0 <= v
    /\ (forall y, In y xs -> nth 0 (sort xs) 0 <= y)
    /\ mask_le xs v <> []
    /\ Ext.mask_le (map Ext.Fin xs) (Ext.Fin v) = map Ext.Fin (mask_le xs v).
Proof.
  intros Hne Hhi Hb.
  destruct (VaR_95_tail xs Hne) as (v & Hv & Hin & Hle & Htail).
  exists v. repeat apply conj.
  - unfold Ext.VaR_95. rewrite (Ext_percentile_Fin xs 5 hi) by (lia || assumption).
    fold (VaR_95 xs). rewrite Hv. reflexivity.
  - exact Hin.
  - exact Hle.
  - intros y Hy. apply sort_In in Hy. apply (In_nth _ _ 0) in Hy.
    destruct Hy as (i & Hi & <-).
    apply sorted_nth_le; [apply sort_Sorted|lia].
  - intros Hempty. unfold mask_le in Hempty. rewrite Hempty in Htail.
    exact Htail.
  - apply Ext_mask_le_Fin.
Qed.

(** The figures of the sample whose prices have all overflowed. *)
Lemma Ext_overflowed_figures :
  Ext.VaR_95 Ext.overflowed_sample = Some Ext.NaN
  /\ Ext.mask_le Ext.overflowed_sample Ext.NaN = []
  /\ Ext.ES_95 Ext.overflowed_sample Ext.NaN = None.
Proof.
  repeat apply conj.
  - unfold Ext.VaR_95, Ext.percentile, Ext.overflowed_sample.
    cbn [existsb Ext.is_nan orb List.length Ext.sort fold_right
         Ext.insert_sorted Ext.leb].
    change ((3 - 1) * 5 / 100)%nat with 0%nat.
    cbn [Nat.add Nat.min Nat.sub nth]. unfold Ext.lerp.
    destruct (Rleb (1 / 2) _); reflexivity.
  - reflexivity.
  - reflexivity.
Qed.

(** C10, as the code has it: for a nonempty sample of finite prices that
    are not negative the 5th percentile is a finite price, some element of
    the sample is at or below it (the sample minimum never exceeds it), so
    the tail selected for the Expected Shortfall is not empty and its mean
    is the mean of a slice that is not empty, and not NaN. *)
Theorem tail_nonempty_finite :
  forall (S_T : list Ext.xfloat) (hi : R),
    S_T <> [] ->
    hi <= max_float ->
    (forall x, In x S_T -> exists p, x = Ext.Fin p /\ 0 <= p <= hi) ->
    exists v : R,
      Ext.VaR_95 S_T = Some (Ext.Fin v)
      /\ (exists x, In x S_T /\ Ext.leb x (Ext.Fin v) = true)
      /\ (forall m, In m S_T ->
            (forall x, In x S_T -> Ext.leb m x = true) ->
            Ext.leb m (Ext.Fin v) = true)
      /\ Ext.mask_le S_T (Ext.Fin v) <> []
      /\ exists es,
           Ext.ES_95 S_T (Ext.Fin v) = Some es
           /\ Ext.is_nan es = false
           /\ Ext.risk_metrics S_T = Some (Ext.Fin v, Some es).
Proof.
  intros S_T hi Hne Hhi Hfin.
  destruct (Ext_bounded_list S_T hi Hfin) as (xs & -> & Hb).
  assert (Hxs : xs <> []) by (intros ->; apply Hne; reflexivity).
  destruct (Ext_VaR_tail xs hi Hxs Hhi Hb)
    as (v & Hv & Hin & Hle & Hmin & Hmask & Hmap).
  assert (Hmask' : Ext.mask_le (map Ext.Fin xs) (Ext.Fin v) <> []).
  { rewrite Hmap. intros E. apply Hmask.
    destruct (mask_le xs v); [reflexivity|discriminate E]. }
  exists v. repeat apply conj.
  - exact Hv.
  - exists (Ext.Fin (nth 0 (sort xs) 0)). split.
    + apply in_map, Hin.
    + cbn. apply Rleb_le, Hle.
  - intros m Hm Hall. apply in_map_iff in Hm. destruct Hm as (y & <- & Hy).
    specialize (Hall _ (in_map Ext.Fin _ _ Hin)). cbn in Hall |- *.
    apply Rleb_le in Hall. apply Rleb_le. lra.
  - exact Hmask'.
  - assert (Hpos : forall p, In p (mask_le xs v) -> 0 <= p).
    { intros p Hp. apply mask_le_In in Hp. apply Hb. tauto. }
    destruct (Ext_mean_no_nan (mask_le xs v) Hmask Hpos)
      as (es & Hes & Hnan).
    exists es. unfold Ext.risk_metrics, Ext.ES_95.
    rewrite Hv, Hmap, Hes. repeat split. exact Hnan.
Qed.

Lemma tail_nonempty_finite_witness :
  exists v : R,
    Ext.VaR_95 [Ext.Fin 3; Ext.Fin 1; Ext.Fin 2] = Some (Ext.Fin v)
    /\ (exists x, In x [Ext.Fin 3; Ext.Fin 1; Ext.Fin 2]
                  /\ Ext.leb x (Ext.Fin v) = true)
    /\ (forall m, In m [Ext.Fin 3; Ext.Fin 1; Ext.Fin 2] ->
          (forall x, In x [Ext.Fin 3; Ext.Fin 1; Ext.Fin 2] ->
             Ext.leb m x = true) ->
          Ext.leb m (Ext.Fin v) = true)
    /\ Ext.mask_le [Ext.Fin 3; Ext.Fin 1; Ext.Fin 2] (Ext.Fin v) <> []
    /\ exists es,
         Ext.ES_95 [Ext.Fin 3; Ext.Fin 1; Ext.Fin 2] (Ext.Fin v) = Some es
         /\ Ext.is_nan es = false
         /\ Ext.risk_metrics [Ext.Fin 3; Ext.Fin 1; Ext.Fin 2]
            = Some (Ext.Fin v, Some es).
Proof.
  apply (tail_nonempty_finite [Ext.Fin 3; Ext.Fin 1; Ext.Fin 2] 3).
  - discriminate.
  - pose proof max_float_large. lra.
  - intros x [<-|[<-|[<-|[]]]]; eexists; (split; [reflexivity|lra]).
Defined.

(** C10, as the specification words it, fails: the sample whose three
    prices have all overflowed is not empty, its 5th percentile is NaN
    (the difference of two infinities), no element is at or below it, the
    tail is empty and its mean is the mean of an empty slice. *)
Lemma tail_nonempty_counterexample :
  Ext.overflowed_sample <> []
  /\ Ext.VaR_95 Ext.overflowed_sample = Some Ext.NaN
  /\ Ext.mask_le Ext.overflowed_sample Ext.NaN = []
  /\ Ext.ES_95 Ext.overflowed_sample Ext.NaN = None
  /\ ~ Ext.tail_nonempty_on_every_sample.
Proof.
  destruct Ext_overflowed_figures as (Hv & Hm & He).
  repeat apply conj; try assumption; try discriminate.
  intros Hall.
  destruct (Hall Ext.overflowed_sample) as (v & Hv' & _ & Hmask & _);
    [discriminate|].
  rewrite Hv in Hv'. injection Hv' as <-. apply Hmask, Hm.
Qed.

(** C8, as the code has it: for every nonempty sample of finite prices
    that are not negative and whose sum stays in the range of the floats,
    both figures exist and are finite, and the Expected Shortfall, the
    mean of the sampled prices at or below the 5th percentile, is at most
    the VaR, the 5th percentile itself. *)
Theorem ES_le_VaR_finite :
  forall (S_T : list Ext.xfloat) (hi : R),
    S_T <> [] ->
    INR (List.length S_T) * hi <= max_float ->
    (forall x, In x S_T -> exists p, x = Ext.Fin p /\ 0 <= p <= hi) ->
    exists v es : R,
      Ext.VaR_95 S_T = Some (Ext.Fin v)
      /\ Ext.ES_95 S_T (Ext.Fin v) = Some (Ext.Fin es)
      /\ Ext.risk_metrics S_T = Some (Ext.Fin v, Some (Ext.Fin es))
      /\ Ext.leb (Ext.Fin es) (Ext.Fin v) = true
      /\ es <= v.
Proof.
  intros S_T hi Hne Hsum Hfin.
  destruct (Ext_bounded_list S_T hi Hfin) as (xs & -> & Hb).
  assert (Hxs : xs <> []) by (intros ->; apply Hne; reflexivity).
  rewrite length_map in Hsum.
  assert (Hlen : 1 <= INR (List.length xs)).
  { destruct xs as [|x xs]; [contradiction|].
    cbn [List.length]. rewrite S_INR.
    pose proof (pos_INR (List.length xs)). lra. }
  assert (Hhi0 : 0 <= hi).
  { destruct xs as [|x xs]; [contradiction|].
    destruct (Hb x (or_introl eq_refl)). lra. }
  assert (Hhi : hi <= max_float) by nra.
  destruct (Ext_VaR_tail xs hi Hxs Hhi Hb)
    as (v & Hv & Hin & Hle & Hmin & Hmask & Hmap).
  pose proof (mean_of_nonempty _ Hmask) as Hes.
  assert (Htb : forall p, In p (mask_le xs v) -> 0 <= p <= hi)
    by (intros p Hp; apply mask_le_In in Hp; apply Hb; tauto).
  assert (Htn : INR (List.length (mask_le xs v)) * hi <= max_float).
  { assert (Hl : INR (List.length (mask_le xs v)) <= INR (List.length xs))
      by (apply le_INR, filter_length_le).
    nra. }
  assert (HES : Ext.ES_95 (map Ext.Fin xs) (Ext.Fin v)
                = Some (Ext.Fin (Np.sum (mask_le xs v)
                                 / INR (List.length (mask_le xs v))))).
  { unfold Ext.ES_95. rewrite Hmap, (Ext_mean_Fin _ hi Htb Htn), Hes.
    reflexivity. }
  assert (Hev : Np.sum (mask_le xs v) / INR (List.length (mask_le xs v)) <= v).
  { apply (mean_le_bound (mask_le xs v) v); [|exact Hes].
    intros x Hx. apply mask_le_In in Hx. tauto. }
  exists v. eexists. repeat apply conj.
  - exact Hv.
  - exact HES.
  - unfold Ext.risk_metrics. rewrite Hv, HES. reflexivity.
  - cbn. apply Rleb_le, Hev.
  - exact Hev.
Qed.

Lemma ES_le_VaR_finite_witness :
  exists v es : R,
    Ext.VaR_95 [Ext.Fin 3; Ext.Fin 1; Ext.Fin 2] = Some (Ext.Fin v)
    /\ Ext.ES_95 [Ext.Fin 3; Ext.Fin 1; Ext.Fin 2] (Ext.Fin v)
       = Some (Ext.Fin es)
    /\ Ext.risk_metrics [Ext.Fin 3; Ext.Fin 1; Ext.Fin 2]
       = Some (Ext.Fin v, Some (Ext.Fin es))
    /\ Ext.leb (Ext.Fin es) (Ext.Fin v) = true
    /\ es <= v.
Proof.
  apply (ES_le_VaR_finite [Ext.Fin 3; Ext.Fin 1; Ext.Fin 2] 3).
  - discriminate.
  - pose proof max_float_large. cbn [List.length INR]. lra.
  - intros x [<-|[<-|[<-|[]]]]; eexists; (split; [reflexivity|lra]).
Defined.

(** C8, as the specification words it, fails: on the nonempty sample whose
    prices have all overflowed the VaR is NaN and the Expected Shortfall
    is the mean of an empty slice, so the one is not at most the other. *)
Lemma ES_le_VaR_counterexample :
  Ext.overflowed_sample <> []
  /\ Ext.risk_metrics Ext.overflowed_sample = Some (Ext.NaN, None)
  /\ ~ Ext.ES_le_VaR_on_every_sample.
Proof.
  destruct Ext_overflowed_figures as (Hv & Hm & He).
  repeat apply conj.
  - discriminate.
  - unfold Ext.risk_metrics. rewrite Hv, He. reflexivity.
  - intros Hall.
    destruct (Hall Ext.overflowed_sample) as (v & es & Hv' & Hes & _);
      [discriminate|].
    rewrite Hv in Hv'. injection Hv' as <-. rewrite He in Hes.
    discriminate Hes.
Qed.

Lemma Ext_leb_NaN_r (x : Ext.xfloat) : Ext.leb x Ext.NaN = false.
Proof. destruct x; reflexivity. Qed.

Lemma Ext_mean_None (a : list Ext.xfloat) : Ext.mean a = None <-> a = [].
Proof. destruct a; cbn; split; intros; try reflexivity; discriminate. Qed.

(** C1, as the code has it: the Expected Shortfall line has no guard.
    Whenever no sample is at or below the threshold, and only then, it is
    the mean of an empty slice, which has no value; so it is whenever the
    threshold is NaN.  No condition of its own is signalled and the VaR is
    not put in its place. *)
Theorem ES_95_no_guard :
  forall S_T : list Ext.xfloat,
    (forall v,
       (forall x, In x S_T -> Ext.leb x v = false)
       <-> Ext.ES_95 S_T v = Ext.mean [])
    /\ Ext.ES_95 S_T Ext.NaN = Ext.mean [].
Proof.
  assert (Hiff : forall S_T v,
             (forall x, In x S_T -> Ext.leb x v = false)
             <-> Ext.ES_95 S_T v = Ext.mean []).
  { intros S_T v. unfold Ext.ES_95. cbn [Ext.mean].
    rewrite Ext_mean_None. unfold Ext.mask_le. split.
    - intros Hall. induction S_T as [|x l IH]; [reflexivity|].
      cbn. rewrite (Hall x) by (left; reflexivity).
      apply IH. intros y Hy. apply Hall. right. exact Hy.
    - intros Hempty x Hx.
      destruct (Ext.leb x v) eqn:E; [|reflexivity].
      assert (Hin : In x (filter (fun x => Ext.leb x v) S_T))
        by (apply filter_In; split; assumption).
      rewrite Hempty in Hin. contradiction. }
  intros S_T. split; [apply Hiff|].
  apply Hiff. intros x _. apply Ext_leb_NaN_r.
Qed.

(** C1, as the specification words it, fails: on the sample whose prices
    have all overflowed the VaR is NaN, no sample is at or below it, and
    the Expected Shortfall is the mean of the empty slice. *)
Lemma ES_95_guard_counterexample :
  Ext.VaR_95 Ext.overflowed_sample = Some Ext.NaN
  /\ Ext.mask_le Ext.overflowed_sample Ext.NaN = []
  /\ Ext.ES_95 Ext.overflowed_sample Ext.NaN = Ext.mean []
  /\ ~ Ext.ES_guarded.
Proof.
  destruct Ext_overflowed_figures as (Hv & Hm & He).
  repeat apply conj; try assumption.
  intros Hguard. apply (Hguard Ext.overflowed_sample Ext.NaN Hv Hm).
  exact He.
Qed.

(** ** The decorator *)

Section CacheDataProperties.

Context {A B W : Type}.
Variable key_eqb : A -> A -> bool.
Hypothesis key_eqb_eq : forall a b, key_eqb a b = true <-> a = b.

Lemma cache_data_hit (f : A -> W -> B * W) (k : A) (st : list (A * B) * W)
  (v : B) :
  cache_lookup key_eqb k (fst st) = Some v ->
  cache_data key_eqb f k st = (v, st).
Proof. intros H. unfold cache_data. rewrite H. reflexivity. Qed.

Lemma cache_data_miss (f : A -> W -> B * W) (k : A) (st : list (A * B) * W) :
  cache_lookup key_eqb k (fst st) = None ->
  cache_data key_eqb f k st
  = (fst (f k (snd st)), ((k, fst (f k (snd st))) :: fst st, snd (f k (snd st)))).
Proof.
  intros H. unfold cache_data. rewrite H.
  destruct (f k (snd st)); reflexivity.
Qed.

Lemma cache_lookup_head (k : A) (v : B) (c : list (A * B)) :
  cache_lookup key_eqb k ((k, v) :: c) = Some v.
Proof.
  cbn. replace (key_eqb k k) with true
    by (symmetry; apply key_eqb_eq; reflexivity).
  reflexivity.
Qed.

(** After a call its arguments are in the table, with the result the call
    has returned. *)
Lemma cache_data_stores (f : A -> W -> B * W) (k : A)
  (st : list (A * B) * W) :
  cache_lookup key_eqb k (fst (snd (cache_data key_eqb f k st)))
  = Some (fst (cache_data key_eqb f k st)).
Proof.
  destruct (cache_lookup key_eqb k (fst st)) as [v|] eqn:E.
  - rewrite (cache_data_hit f k st v E). exact E.
  - rewrite (cache_data_miss f k st E). cbn [fst snd].
    apply cache_lookup_head.
Qed.

(** A second call with the arguments of the first returns what the first
    returned and changes nothing. *)
Lemma cache_data_repeat (f : A -> W -> B * W) (k : A)
  (st : list (A * B) * W) :
  cache_data key_eqb f k (snd (cache_data key_eqb f k st))
  = (fst (cache_data key_eqb f k st), snd (cache_data key_eqb f k st)).
Proof. apply cache_data_hit, cache_data_stores. Qed.

(** Under the decorator a function that reads and changes nothing but its
    arguments returns what it returns without it, as long as the table
    holds results of earlier calls only: [black_scholes],
    [calculate_greeks] and [get_price_range] are embedded as plain
    functions for this reason. *)
Lemma cache_data_pure (h : A -> B) (k : A) (st : list (A * B) * W) :
  (forall k' v, cache_lookup key_eqb k' (fst st) = Some v -> v = h k') ->
  fst (cache_data key_eqb (fun k w => (h k, w)) k st) = h k
  /\ snd (snd (cache_data key_eqb (fun k w => (h k, w)) k st)) = snd st
  /\ (forall k' v,
        cache_lookup key_eqb k'
          (fst (snd (cache_data key_eqb (fun k w => (h k, w)) k st)))
        = Some v ->
        v = h k').
Proof.
  intros Hinv.
  destruct (cache_lookup key_eqb k (fst st)) as [v|] eqn:E.
  - rewrite (cache_data_hit _ k st v E). cbn [fst snd].
    repeat apply conj; [apply Hinv, E|reflexivity|exact Hinv].
  - rewrite (cache_data_miss _ k st E). cbn [fst snd].
    repeat apply conj; [reflexivity|reflexivity|].
    intros k' v. cbn [cache_lookup].
    destruct (key_eqb k' k) eqn:Ek.
    + apply key_eqb_eq in Ek. subst k'. intros [= <-]. reflexivity.
    + apply Hinv.
Qed.

End CacheDataProperties.

Lemma Reqb_eq (x y : R) : Reqb x y = true <-> x = y.
Proof.
  unfold Reqb. destruct (Req_dec_T x y); split; intros; try assumption;
    try reflexivity; try discriminate; contradiction.
Qed.

Lemma mc_args_eqb_eq (a b : mc_args) : mc_args_eqb a b = true <-> a = b.
Proof.
  unfold mc_args_eqb. rewrite !andb_true_iff, !Reqb_eq, Nat.eqb_eq,
    String.eqb_eq.
  destruct a, b; cbn. split.
  - intros [[[[[[-> ->] ->] ->] ->] ->] ->]. reflexivity.
  - intros [= -> -> -> -> -> -> ->]. repeat split.
Qed.

(** ** Simulation pricer *)

Lemma standard_normal_length (n : nat) (g : rng) :
  List.length (fst (standard_normal n g)) = n.
Proof. cbn. rewrite length_map, length_seq. reflexivity. Qed.

(** What the body computes from the variates it draws. *)
Lemma monte_carlo_body_spec (a : mc_args) (g : rng) :
  fst (monte_carlo_body a g)
  = (option_map (Rmult (exp (- arg_r a * arg_T a)))
       (Np.mean
          (option_payoff
             (map (terminal_price (arg_S a) (arg_T a) (arg_r a) (arg_sigma a))
                (fst (standard_normal (arg_simulations a) g)))
             (arg_K a) (arg_option_type a))),
     map (terminal_price (arg_S a) (arg_T a) (arg_r a) (arg_sigma a))
       (fst (standard_normal (arg_simulations a) g)))
  /\ snd (monte_carlo_body a g) = snd (standard_normal (arg_simulations a) g).
Proof.
  unfold monte_carlo_body, standard_normal, Np.scale, Np.exp_arr.
  cbn [fst snd]. rewrite !map_map. unfold terminal_price.
  split; reflexivity.
Qed.


Lemma cache_sound_nil : cache_sound [].
Proof. intros a res H. discriminate H. Qed.

(** A call keeps the table sound. *)
Lemma cache_sound_preserved (a : mc_args) (w : world) :
  cache_sound (fst w) -> cache_sound (fst (snd (monte_carlo_option a w))).
Proof.
  intros Hsound. unfold monte_carlo_option.
  destruct (cache_lookup mc_args_eqb a (fst w)) as [res|] eqn:E.
  - rewrite (cache_data_hit _ _ a w res E). exact Hsound.
  - rewrite (cache_data_miss _ _ a w E). cbn [fst snd].
    intros a' res. cbn [cache_lookup].
    destruct (mc_args_eqb a' a) eqn:Ea.
    + apply mc_args_eqb_eq in Ea. subst a'. intros [= <-].
      exists (snd w). reflexivity.
    + apply Hsound.
Qed.

(** In every state of a run the table is sound. *)
Lemma reachable_cache_sound (w : world) : reachable w -> cache_sound (fst w).
Proof.
  induction 1 as [g|a w _ IH].
  - exact cache_sound_nil.
  - apply cache_sound_preserved, IH.
Qed.



(** C9, as the code has it: [monte_carlo_option] is memoised by its
    decorator.  A call whose arguments are not in the table draws
    [simulations] fresh variates, builds the sample from them and stores the
    result; a call whose arguments are in the table returns the stored
    result and leaves the generator where it was; so the second of two
    consecutive calls with identical inputs returns the price and the
    sample of the first, and draws nothing. *)
Theorem monte_carlo_option_memoised :
  forall (a : mc_args) (w : world),
    (cache_lookup mc_args_eqb a (fst w) = None ->
       snd (fst (monte_carlo_option a w))
       = map (terminal_price (arg_S a) (arg_T a) (arg_r a) (arg_sigma a))
           (fst (standard_normal (arg_simulations a) (snd w)))
       /\ snd (snd (monte_carlo_option a w))
          = snd (standard_normal (arg_simulations a) (snd w))
       /\ fst (snd (monte_carlo_option a w))
          = (a, fst (monte_carlo_option a w)) :: fst w)
    /\ (forall res,
          cache_lookup mc_args_eqb a (fst w) = Some res ->
          monte_carlo_option a w = (res, w))
    /\ fst (monte_carlo_option a (snd (monte_carlo_option a w)))
       = fst (monte_carlo_option a w)
    /\ snd (monte_carlo_option a (snd (monte_carlo_option a w)))
       = snd (monte_carlo_option a w).
Proof.
  intros a w. unfold monte_carlo_option, world in *. repeat apply conj.
  - intros E. rewrite (cache_data_miss _ _ a w E). cbn [fst snd].
    destruct (monte_carlo_body_spec a (snd w)) as [Hres Hg].
    rewrite Hres, Hg. cbn [fst snd]. repeat apply conj; reflexivity.
  - intros res E. apply cache_data_hit, E.
  - rewrite (cache_data_repeat _ mc_args_eqb_eq). reflexivity.
  - rewrite (cache_data_repeat _ mc_args_eqb_eq). reflexivity.
Qed.

(** C9, as the specification words it, fails: after a first call on an
    empty table, a second call with the same arguments returns the sample
    of the first call and leaves the generator untouched, although the
    generator would deliver other variates. *)
Lemma monte_carlo_option_fresh_counterexample :
  snd (fst (monte_carlo_option sample_args world_after_first_call))
  = snd (fst (monte_carlo_option sample_args ([], counting_rng)))
  /\ snd (snd (monte_carlo_option sample_args world_after_first_call))
     = snd world_after_first_call
  /\ snd world_after_first_call 0%nat
     <> snd (standard_normal 3 (snd world_after_first_call)) 0%nat
  /\ ~ draws_fresh_on_every_call.
Proof.
  set (w1 := world_after_first_call).
  assert (Hrep : monte_carlo_option sample_args w1
                 = (fst (monte_carlo_option sample_args ([], counting_rng)),
                    w1))
    by (apply (cache_data_repeat _ mc_args_eqb_eq)).
  assert (Hrng : snd w1 = fun i => counting_rng (3 + i)%nat).
  { unfold w1, world_after_first_call, monte_carlo_option.
    rewrite cache_data_miss by reflexivity. cbn [fst snd].
    destruct (monte_carlo_body_spec sample_args counting_rng) as [_ Hg].
    rewrite Hg. reflexivity. }
  assert (Hne : snd w1 0%nat <> snd (standard_normal 3 (snd w1)) 0%nat).
  { rewrite Hrng. cbn [standard_normal snd]. unfold counting_rng.
    intros H. apply INR_eq in H. discriminate H. }
  repeat apply conj.
  - rewrite Hrep. reflexivity.
  - rewrite Hrep. reflexivity.
  - exact Hne.
  - intros Hfresh. destruct (Hfresh sample_args w1) as [_ Hg].
    rewrite Hrep in Hg. cbn [snd] in Hg.
    apply Hne. change (arg_simulations sample_args) with 3%nat in Hg.
    rewrite <- Hg. reflexivity.
Qed.

(** ** The risk figures on a small sample *)

Ltac decide_Rleb :=
  match goal with
  | |- context [Rleb ?x ?y] =>
      first
        [ replace (Rleb x y) with true by (symmetry; apply Rleb_le; lra)
        | replace (Rleb x y) with false by (symmetry; apply Rleb_gt; lra) ]
  end.

Ltac run_risk :=
  repeat (cbn [sort fold_right insert_sorted filter nth List.length
               Nat.sub Nat.mul Nat.add Nat.min];
          try decide_Rleb).

(** On the sample [3, 1, 2] the virtual index is [2 * 5 / 100 = 0.1]: the
    percentile lies one tenth of the way from 1 to 2, only the sample 1 is
    at or below it, and the Expected Shortfall is 1. *)
Example risk_metrics_example :
  risk_metrics [3; 1; 2] = Some (1.1, Some 1).
Proof.
  assert (Hv : VaR_95 [3; 1; 2] = Some 1.1).
  { unfold VaR_95, percentile. run_risk.
    change (10 / 100)%nat with 0%nat.
    change (10 mod 100)%nat with 10%nat.
    run_risk. unfold lerp.
    replace (INR 10) with 10 by (rewrite INR_IZR_INZ; reflexivity).
    decide_Rleb. f_equal. lra. }
  unfold risk_metrics. rewrite Hv. unfold ES_95, mask_le. run_risk.
  unfold Np.mean, Np.sum. cbn [fold_right List.length].
  replace (INR 1) with 1 by reflexivity.
  do 2 f_equal. f_equal. lra.
Qed.

(** * Further properties of the code *)

Lemma bound_large : 1000000 <= bound.
Proof.
  unfold bound. replace 1000000 with (10 ^ 6) by (simpl; lra).
  apply Rle_pow; [lra|lia].
Qed.

Lemma bound_inv : 0 < / bound <= / 1000000.
Proof.
  pose proof bound_large as H. split.
  - apply Rinv_0_lt_compat. lra.
  - apply Rinv_le_contravar; lra.
Qed.

Lemma dashboard_inputs_valid (S K T r sigma : R) :
  dashboard_inputs S K T r sigma ->
  0 < S /\ 0 < K /\ 0 < T /\ 0 < sigma /\ 0 <= r.
Proof.
  pose proof bound_inv. unfold dashboard_inputs. lra.
Qed.

Ltac in_range :=
  pose proof bound_large; pose proof bound_inv;
  unfold dashboard_args, dashboard_inputs; cbn; lra.

(** ** Payoffs *)

Lemma payoff_at_nonneg (s K : R) (ty : string) : 0 <= payoff_at s K ty.
Proof.
  unfold payoff_at. destruct (String.eqb ty "call"); apply Rmax_r.
Qed.

(** X1: no payoff is negative, whatever the grid, the strike and the
    option type. *)
Theorem option_payoff_nonneg :
  forall (S_range : list R) (K : R) (option_type : string),
    Forall (fun p => 0 <= p) (option_payoff S_range K option_type).
Proof.
  intros S_range K ty. rewrite option_payoff_map.
  apply Forall_forall. intros p Hp. apply in_map_iff in Hp.
  destruct Hp as (s & <- & _). apply payoff_at_nonneg.
Qed.

Lemma payoff_at_parity (s K : R) :
  payoff_at s K "call" - payoff_at s K "put" = s - K.
Proof.
  unfold payoff_at. cbn [String.eqb Ascii.eqb Bool.eqb].
  unfold Rmax. destruct (Rle_dec (s - K) 0), (Rle_dec (K - s) 0); lra.
Qed.

(** X2: parity of the payoffs.  At every grid point the call payoff minus
    the put payoff at the same strike is the price minus the strike. *)
Theorem option_payoff_parity :
  forall (S_range : list R) (K : R) (i : nat),
    (i < List.length S_range)%nat ->
    nth i (option_payoff S_range K "call") 0
    - nth i (option_payoff S_range K "put") 0
    = nth i S_range 0 - K.
Proof.
  intros S_range K i Hi. rewrite !option_payoff_map.
  rewrite (nth_indep (map (fun s => payoff_at s K "call") S_range) 0
             (payoff_at 0 K "call")) by (rewrite length_map; exact Hi).
  rewrite (nth_indep (map (fun s => payoff_at s K "put") S_range) 0
             (payoff_at 0 K "put")) by (rewrite length_map; exact Hi).
  rewrite (map_nth (fun s => payoff_at s K "call")).
  rewrite (map_nth (fun s => payoff_at s K "put")).
  apply payoff_at_parity.
Qed.

Lemma option_payoff_parity_witness :
  nth 2 (option_payoff [50; 100; 150] 100 "call") 0
  - nth 2 (option_payoff [50; 100; 150] 100 "put") 0
  = nth 2 [50; 100; 150] 0 - 100.
Proof.
  apply (option_payoff_parity [50; 100; 150] 100 2). cbn. lia.
Defined.

(** X3: the option type is compared with ['call'] only.  Any other string,
    a misspelt or capitalised one included, is priced, hedged and paid off
    as a put; and any action other than ['buy'] counts as a sale. *)
Theorem not_call_is_put :
  forall (norm_cdf : R -> R) (S K T r sigma : R) (S_range : list R)
         (option_type : string),
    option_type <> "call"%string ->
    option_payoff S_range K option_type = option_payoff S_range K "put"
    /\ black_scholes norm_cdf S K T r sigma option_type
       = black_scholes norm_cdf S K T r sigma "put"
    /\ calculate_greeks norm_cdf S K T r sigma option_type
       = calculate_greeks norm_cdf S K T r sigma "put"
    /\ (forall ty k act q p,
          act <> "buy"%string ->
          multiplier {| type := ty; strike := k; action := act;
                        quantity := q; premium := p |} = (- q)%Z).
Proof.
  intros norm_cdf S K T r sigma S_range ty Hty.
  apply String.eqb_neq in Hty.
  unfold option_payoff, black_scholes, calculate_greeks.
  rewrite Hty. cbn [String.eqb Ascii.eqb Bool.eqb].
  repeat apply conj; try reflexivity.
  intros ty' k act q p Hact. apply String.eqb_neq in Hact.
  unfold multiplier. cbn [action quantity]. rewrite Hact. lia.
Qed.

Lemma not_call_is_put_witness :
  option_payoff [50; 100; 150] 100 "Call" = option_payoff [50; 100; 150] 100 "put"
  /\ black_scholes logistic_cdf 100 100 1 0.05 0.2 "Call"
     = black_scholes logistic_cdf 100 100 1 0.05 0.2 "put"
  /\ calculate_greeks logistic_cdf 100 100 1 0.05 0.2 "Call"
     = calculate_greeks logistic_cdf 100 100 1 0.05 0.2 "put"
  /\ (forall ty k act q p,
        act <> "buy"%string ->
        multiplier {| type := ty; strike := k; action := act;
                      quantity := q; premium := p |} = (- q)%Z).
Proof.
  apply (not_call_is_put logistic_cdf 100 100 1 0.05 0.2 [50; 100; 150]
           "Call").
  discriminate.
Defined.

(** ** Strategies *)

Lemma add_map (f g : R -> R) (l : list R) :
  Np.add (map f l) (map g l) = map (fun x => f x + g x) l.
Proof.
  induction l as [|x l IH]; cbn; [reflexivity|]. rewrite IH. reflexivity.
Qed.

Lemma gross_payoff_app (s : R) (p q : list position) :
  gross_payoff s (p ++ q) = gross_payoff s p + gross_payoff s q.
Proof.
  induction p as [|pos p IH]; cbn; [ring|]. rewrite IH. ring.
Qed.

Lemma net_premium_app (p q : list position) :
  net_premium (p ++ q) = net_premium p + net_premium q.
Proof.
  induction p as [|pos p IH]; cbn; [ring|]. rewrite IH. ring.
Qed.

Lemma gross_payoff_perm (s : R) (p q : list position) :
  Permutation p q -> gross_payoff s p = gross_payoff s q.
Proof.
  induction 1 as [|pos p q _ IH|a b p|p q t _ IH1 _ IH2]; cbn.
  - reflexivity.
  - rewrite IH. reflexivity.
  - ring.
  - rewrite IH1. exact IH2.
Qed.

Lemma net_premium_perm (p q : list position) :
  Permutation p q -> net_premium p = net_premium q.
Proof.
  induction 1 as [|pos p q _ IH|a b p|p q t _ IH1 _ IH2]; cbn.
  - reflexivity.
  - rewrite IH. reflexivity.
  - ring.
  - rewrite IH1. exact IH2.
Qed.

(** X4: the curve of a strategy has one value per grid point, whatever the
    positions. *)
Theorem strategy_payoff_length :
  forall (grid : list R) (positions : list position),
    List.length (strategy_payoff grid positions) = List.length grid.
Proof.
  intros grid positions. rewrite strategy_payoff_pointwise.
  apply length_map.
Qed.

(** X5: the order of the legs does not matter: two lists of positions that
    are rearrangements of each other give the same curve. *)
Theorem strategy_payoff_permutation :
  forall (grid : list R) (p q : list position),
    Permutation p q -> strategy_payoff grid p = strategy_payoff grid q.
Proof.
  intros grid p q Hperm. rewrite !strategy_payoff_pointwise.
  apply map_ext. intros s.
  rewrite (gross_payoff_perm s p q Hperm), (net_premium_perm p q Hperm).
  reflexivity.
Qed.

(** X6: strategies add up: the curve of two lists of positions put
    together is the pointwise sum of the curves of each. *)
Theorem strategy_payoff_app :
  forall (grid : list R) (p q : list position),
    strategy_payoff grid (p ++ q)
    = Np.add (strategy_payoff grid p) (strategy_payoff grid q).
Proof.
  intros grid p q. rewrite !strategy_payoff_pointwise, add_map.
  apply map_ext. intros s.
  rewrite gross_payoff_app, net_premium_app. ring.
Qed.

(** X7: a leg bought and the same leg sold cancel: the curve is zero at
    every grid point. *)
Theorem strategy_payoff_buy_sell_cancel :
  forall (grid : list R) (ty : string) (K : R) (q : Z) (p : R),
    strategy_payoff grid
      [ {| type := ty; strike := K; action := "buy"; quantity := q;
           premium := p |};
        {| type := ty; strike := K; action := "sell"; quantity := q;
           premium := p |} ]
    = repeat 0 (List.length grid).
Proof.
  intros grid ty K q p. rewrite strategy_payoff_pointwise.
  cbn [gross_payoff net_premium type strike action quantity premium].
  unfold sign. cbn [String.eqb Ascii.eqb Bool.eqb].
  induction grid as [|s rest IH]; cbn; [reflexivity|].
  rewrite IH. f_equal. ring.
Qed.

Lemma strategy_payoff_permutation_witness :
  strategy_payoff [90; 110]
    [ {| type := "call"; strike := 105; action := "sell"; quantity := 1;
         premium := 8 |};
      {| type := "put"; strike := 95; action := "buy"; quantity := 1;
         premium := 3 |} ]
  = strategy_payoff [90; 110]
      [ {| type := "put"; strike := 95; action := "buy"; quantity := 1;
           premium := 3 |};
        {| type := "call"; strike := 105; action := "sell"; quantity := 1;
           premium := 8 |} ].
Proof.
  apply strategy_payoff_permutation. apply perm_swap.
Defined.

(** X8: a single option bought cannot lose more than the premium paid, and
    a single option sold cannot gain more than the premium received, at any
    grid point, for a quantity that is not negative. *)
Theorem single_leg_premium_bound :
  forall (grid : list R) (ty : string) (K : R) (q : Z) (p : R),
    (0 <= q)%Z ->
    Forall (fun x => - (IZR q * p) <= x)
      (strategy_payoff grid
         [ {| type := ty; strike := K; action := "buy"; quantity := q;
              premium := p |} ])
    /\ Forall (fun x => x <= IZR q * p)
         (strategy_payoff grid
            [ {| type := ty; strike := K; action := "sell"; quantity := q;
                 premium := p |} ]).
Proof.
  intros grid ty K q p Hq. apply IZR_le in Hq.
  rewrite !strategy_payoff_pointwise.
  cbn [gross_payoff net_premium type strike action quantity premium].
  unfold sign. cbn [String.eqb Ascii.eqb Bool.eqb].
  split; apply Forall_forall; intros x Hx; apply in_map_iff in Hx;
    destruct Hx as (s & <- & _); pose proof (payoff_at_nonneg s K ty); nra.
Qed.

Lemma single_leg_premium_bound_witness :
  Forall (fun x => - (IZR 2 * 8) <= x)
    (strategy_payoff [100; 110]
       [ {| type := "call"; strike := 105; action := "buy"; quantity := 2;
            premium := 8 |} ])
  /\ Forall (fun x => x <= IZR 2 * 8)
       (strategy_payoff [100; 110]
          [ {| type := "call"; strike := 105; action := "sell"; quantity := 2;
               premium := 8 |} ]).
Proof.
  apply (single_leg_premium_bound [100; 110] "call" 105 2 8). lia.
Defined.

(** ** Analytic pricer *)

Section AnalyticPricerFurther.

Variable norm_cdf : R -> R.
Hypothesis norm_cdf_range : forall x, 0 <= norm_cdf x <= 1.
Hypothesis norm_cdf_symmetry : forall x, norm_cdf (- x) = 1 - norm_cdf x.

(** X9: price bounds.  For inputs of the dashboard the call is worth at
    most the spot and the put at most the discounted strike. *)
Theorem black_scholes_upper_bounds :
  forall S K T r sigma : R,
    dashboard_inputs S K T r sigma ->
    black_scholes norm_cdf S K T r sigma "call" <= S
    /\ black_scholes norm_cdf S K T r sigma "put" <= K * exp (- r * T).
Proof.
  intros S K T r sigma Hin.
  destruct (dashboard_inputs_valid _ _ _ _ _ Hin) as (HS & HK & _).
  unfold black_scholes. cbn [String.eqb Ascii.eqb Bool.eqb].
  set (d1 := (ln (S / K) + (r + 0.5 * sigma ^ 2) * T) / (sigma * sqrt T)).
  set (d2 := d1 - sigma * sqrt T).
  pose proof (norm_cdf_range d1) as H1.
  pose proof (norm_cdf_range d2) as H2.
  pose proof (norm_cdf_range (- d1)) as H3.
  pose proof (norm_cdf_range (- d2)) as H4.
  pose proof (exp_pos (- r * T)) as He.
  assert (Hd : 0 <= K * exp (- r * T)) by nra.
  split; nra.
Qed.

(** X10: for inputs of the dashboard the Greeks of a call and of a put at the same parameters differ as
    put-call parity says: the Deltas by one, the Thetas by
    [- r K exp (- r T) / 365], while Gamma and Vega are the same. *)
Theorem greeks_parity :
  forall S K T r sigma : R,
    dashboard_inputs S K T r sigma ->
    Delta (calculate_greeks norm_cdf S K T r sigma "call")
    - Delta (calculate_greeks norm_cdf S K T r sigma "put") = 1
    /\ Gamma (calculate_greeks norm_cdf S K T r sigma "call")
       = Gamma (calculate_greeks norm_cdf S K T r sigma "put")
    /\ Vega (calculate_greeks norm_cdf S K T r sigma "call")
       = Vega (calculate_greeks norm_cdf S K T r sigma "put")
    /\ Theta (calculate_greeks norm_cdf S K T r sigma "call")
       - Theta (calculate_greeks norm_cdf S K T r sigma "put")
       = - (r * K * exp (- r * T)) / 365.
Proof.
  intros S K T r sigma _. unfold calculate_greeks.
  cbn [Delta Gamma Vega Theta String.eqb Ascii.eqb Bool.eqb].
  rewrite norm_cdf_symmetry.
  repeat apply conj.
  - ring.
  - reflexivity.
  - reflexivity.
  - unfold Rdiv. ring.
Qed.

(** X11: time decay of a call.  For inputs of the dashboard the Theta of
    a call is never positive. *)
Theorem call_theta_nonpositive :
  forall S K T r sigma : R,
    dashboard_inputs S K T r sigma ->
    Theta (calculate_greeks norm_cdf S K T r sigma "call") <= 0.
Proof.
  intros S K T r sigma Hin.
  destruct (dashboard_inputs_valid _ _ _ _ _ Hin)
    as (HS & HK & HT & Hsigma & Hr).
  unfold calculate_greeks.
  cbn [Theta String.eqb Ascii.eqb Bool.eqb].
  set (d1 := (ln (S / K) + (r + 0.5 * sigma ^ 2) * T) / (sigma * sqrt T)).
  pose proof (norm_pdf_pos d1) as Hpdf.
  pose proof (sqrt_lt_R0 T HT) as HsqrtT.
  pose proof (norm_cdf_range (d1 - sigma * sqrt T)) as Hcdf.
  pose proof (exp_pos (- r * T)) as He.
  assert (Hbase : - S * norm_pdf d1 * sigma / (2 * sqrt T) < 0).
  { assert (Hnum : 0 < S * norm_pdf d1 * sigma)
      by (apply Rmult_lt_0_compat; [apply Rmult_lt_0_compat|]; assumption).
    assert (Hq : 0 < S * norm_pdf d1 * sigma / (2 * sqrt T))
      by (apply Rdiv_lt_0_compat; lra).
    replace (- S * norm_pdf d1 * sigma / (2 * sqrt T))
      with (- (S * norm_pdf d1 * sigma / (2 * sqrt T)))
      by (field; lra).
    lra. }
  assert (Hcarry : 0 <= r * K * exp (- r * T)
                        * norm_cdf (d1 - sigma * sqrt T)).
  { apply Rmult_le_pos; [|lra].
    apply Rmult_le_pos; [apply Rmult_le_pos|]; lra. }
  lra.
Qed.

End AnalyticPricerFurther.

Lemma black_scholes_upper_bounds_witness :
  black_scholes logistic_cdf 100 100 1 0.05 0.2 "call" <= 100
  /\ black_scholes logistic_cdf 100 100 1 0.05 0.2 "put"
     <= 100 * exp (- (0.05) * 1).
Proof.
  apply (black_scholes_upper_bounds logistic_cdf logistic_cdf_range).
  in_range.
Defined.

Lemma greeks_parity_witness :
  Delta (calculate_greeks logistic_cdf 100 100 1 0.05 0.2 "call")
  - Delta (calculate_greeks logistic_cdf 100 100 1 0.05 0.2 "put") = 1
  /\ Gamma (calculate_greeks logistic_cdf 100 100 1 0.05 0.2 "call")
     = Gamma (calculate_greeks logistic_cdf 100 100 1 0.05 0.2 "put")
  /\ Vega (calculate_greeks logistic_cdf 100 100 1 0.05 0.2 "call")
     = Vega (calculate_greeks logistic_cdf 100 100 1 0.05 0.2 "put")
  /\ Theta (calculate_greeks logistic_cdf 100 100 1 0.05 0.2 "call")
     - Theta (calculate_greeks logistic_cdf 100 100 1 0.05 0.2 "put")
     = - (0.05 * 100 * exp (- (0.05) * 1)) / 365.
Proof.
  apply (greeks_parity logistic_cdf logistic_cdf_symmetry). in_range.
Defined.

Lemma call_theta_nonpositive_witness :
  Theta (calculate_greeks logistic_cdf 100 100 1 0.05 0.2 "call") <= 0.
Proof.
  apply (call_theta_nonpositive logistic_cdf logistic_cdf_range). in_range.
Defined.



(** ** Price grid *)








(** ** Simulation pricer *)

(** Whatever a call returns on a sound table, the body has produced. *)
Lemma monte_carlo_option_from_body (a : mc_args) (w : world) :
  cache_sound (fst w) ->
  exists g, fst (monte_carlo_option a w) = fst (monte_carlo_body a g).
Proof.
  intros Hsound. unfold monte_carlo_option.
  destruct (cache_lookup mc_args_eqb a (fst w)) as [res|] eqn:E.
  - rewrite (cache_data_hit _ _ a w res E). cbn [fst].
    destruct (Hsound a res E) as [g Hg]. exists g. symmetry. exact Hg.
  - rewrite (cache_data_miss _ _ a w E). cbn [fst].
    exists (snd w). reflexivity.
Qed.

Lemma terminal_price_pos (S T r sigma z : R) :
  0 < S -> 0 < terminal_price S T r sigma z.
Proof.
  intros HS. unfold terminal_price.
  apply Rmult_lt_0_compat; [exact HS|apply exp_pos].
Qed.

Lemma sum_nonneg (a : list R) : (forall x, In x a -> 0 <= x) -> 0 <= Np.sum a.
Proof.
  induction a as [|x a IH]; intros Hb; cbn; [lra|].
  assert (0 <= x) by (apply Hb; left; reflexivity).
  assert (0 <= Np.sum a) by (apply IH; intros y Hy; apply Hb; right; exact Hy).
  unfold Np.sum in *. lra.
Qed.

Lemma mean_nonneg (a : list R) (m : R) :
  (forall x, In x a -> 0 <= x) -> Np.mean a = Some m -> 0 <= m.
Proof.
  intros Hb Hm.
  assert (Hne : a <> []) by (intros ->; discriminate).
  rewrite (mean_of_nonempty _ Hne) in Hm. injection Hm as <-.
  apply Rmult_le_pos; [apply sum_nonneg, Hb|].
  apply Rlt_le, Rinv_0_lt_compat, lt_0_INR.
  destruct a; [contradiction|cbn; lia].
Qed.

(** X15: for inputs of the dashboard no simulated terminal price is
    negative, whether the sample is fresh or comes from the table. *)
Theorem monte_carlo_sample_nonneg :
  forall (a : mc_args) (w : world),
    dashboard_args a -> cache_sound (fst w) ->
    Forall (fun s => 0 <= s) (snd (fst (monte_carlo_option a w))).
Proof.
  intros a w Hin Hsound.
  destruct (dashboard_inputs_valid _ _ _ _ _ Hin) as (HS & _).
  destruct (monte_carlo_option_from_body a w Hsound) as [g ->].
  destruct (monte_carlo_body_spec a g) as [-> _]. cbn [fst snd].
  apply Forall_forall. intros s Hs. apply in_map_iff in Hs.
  destruct Hs as (z & <- & _). apply Rlt_le, terminal_price_pos, HS.
Qed.

Lemma monte_carlo_sample_nonneg_witness :
  Forall (fun s => 0 <= s)
    (snd (fst (monte_carlo_option sample_args ([], counting_rng)))).
Proof.
  apply (monte_carlo_sample_nonneg sample_args ([], counting_rng)).
  - in_range.
  - exact cache_sound_nil.
Defined.

(** X16: the estimated price, when it has a value, is not negative,
    whatever the arguments. *)
Theorem monte_carlo_price_nonneg :
  forall (a : mc_args) (w : world),
    cache_sound (fst w) ->
    match fst (fst (monte_carlo_option a w)) with
    | Some p => 0 <= p
    | None => True
    end.
Proof.
  intros a w Hsound.
  destruct (monte_carlo_option_from_body a w Hsound) as [g ->].
  destruct (monte_carlo_body_spec a g) as [-> _]. cbn [fst snd].
  destruct (Np.mean _) as [m|] eqn:Hm; cbn [option_map]; [|exact I].
  apply Rmult_le_pos; [apply Rlt_le, exp_pos|].
  eapply mean_nonneg; [|exact Hm].
  intros x Hx. rewrite option_payoff_map in Hx. apply in_map_iff in Hx.
  destruct Hx as (s & <- & _). apply payoff_at_nonneg.
Qed.

Lemma monte_carlo_price_nonneg_witness :
  match fst (fst (monte_carlo_option sample_args ([], counting_rng))) with
  | Some p => 0 <= p
  | None => True
  end.
Proof.
  apply (monte_carlo_price_nonneg sample_args ([], counting_rng)).
  exact cache_sound_nil.
Defined.

(** X17: with zero simulations a call that is not in the table returns an
    empty sample and a price without a value (the mean of an empty array),
    takes nothing from the generator, and the risk figures computed from
    that sample do not exist. *)
Theorem monte_carlo_zero_simulations :
  forall (a : mc_args) (w : world),
    arg_simulations a = 0%nat ->
    cache_lookup mc_args_eqb a (fst w) = None ->
    fst (monte_carlo_option a w) = (None, [])
    /\ (forall i, snd (snd (monte_carlo_option a w)) i = snd w i)
    /\ simulate_risk a w = None.
Proof.
  intros a w Hn E.
  assert (Hres : fst (monte_carlo_option a w) = (None, [])).
  { unfold monte_carlo_option. rewrite (cache_data_miss _ _ a w E).
    cbn [fst]. destruct (monte_carlo_body_spec a (snd w)) as [-> _].
    rewrite Hn. cbn. unfold option_payoff.
    destruct (String.eqb (arg_option_type a) "call"); reflexivity. }
  repeat apply conj.
  - exact Hres.
  - intros i. unfold monte_carlo_option. rewrite (cache_data_miss _ _ a w E).
    cbn [fst snd]. destruct (monte_carlo_body_spec a (snd w)) as [_ ->].
    rewrite Hn. reflexivity.
  - unfold simulate_risk. rewrite Hres. reflexivity.
Qed.

Lemma monte_carlo_zero_simulations_witness :
  fst (monte_carlo_option (mkArgs 100 100 1 0.05 0.2 0 "call")
         ([], counting_rng)) = (None, [])
  /\ (forall i,
        snd (snd (monte_carlo_option (mkArgs 100 100 1 0.05 0.2 0 "call")
                    ([], counting_rng))) i
        = snd (([], counting_rng) : world) i)
  /\ simulate_risk (mkArgs 100 100 1 0.05 0.2 0 "call") ([], counting_rng)
     = None.
Proof.
  apply (monte_carlo_zero_simulations (mkArgs 100 100 1 0.05 0.2 0 "call")
           ([], counting_rng)); reflexivity.
Defined.

Lemma payoff_sum_parity (K : R) (l : list R) :
  Np.sum (option_payoff l K "call") - Np.sum (option_payoff l K "put")
  = Np.sum l - INR (List.length l) * K.
Proof.
  rewrite !option_payoff_map.
  induction l as [|s l IH].
  - cbn. ring.
  - cbn [map Np.sum fold_right List.length]. rewrite S_INR.
    pose proof (payoff_at_parity s K) as Hp.
    unfold Np.sum in IH. lra.
Qed.

(** The sample drawn for [sample_args] from [counting_rng] is bounded. *)
Lemma sample_args_sample_bounded :
  forall x,
    In x (snd (fst (monte_carlo_body sample_args counting_rng))) ->
    x <= 100 * exp 1.
Proof.
  destruct (monte_carlo_body_spec sample_args counting_rng) as [-> _].
  cbn [fst snd standard_normal sample_args arg_S arg_T arg_r arg_sigma
       arg_simulations seq map].
  intros x Hx.
  assert (Hk : forall k, 0 <= k <= 2 ->
                 terminal_price 100 1 0.05 0.2 k <= 100 * exp 1).
  { intros k Hk. unfold terminal_price.
    apply Rmult_le_compat_l; [lra|].
    apply Rlt_le, exp_increasing. rewrite sqrt_1. lra. }
  unfold counting_rng in Hx. cbn [INR] in Hx.
  destruct Hx as [<-|[<-|[<-|[]]]]; apply Hk; lra.
Qed.

(** X18: put-call parity of the estimator.  For inputs of the dashboard
    and a sample whose prices stay below a
    finite bound, small enough for the sums of the prices and of the
    payoffs to stay in the range of the floats, the body run on the same
    variates for a call and for a put gives the same sample, and the call estimate minus the put
    estimate is the discounted difference between the mean simulated price
    and the strike. *)
Theorem monte_carlo_parity :
  forall (S K T r sigma : R) (n : nat) (g : rng) (hi : R),
    (0 < n)%nat ->
    dashboard_inputs S K T r sigma ->
    (forall x,
       In x (snd (fst (monte_carlo_body (mkArgs S K T r sigma n "call") g))) ->
       x <= hi) ->
    INR n * hi <= max_float -> INR n * K <= max_float ->
    exists pc pp m,
      fst (fst (monte_carlo_body (mkArgs S K T r sigma n "call") g)) = Some pc
      /\ fst (fst (monte_carlo_body (mkArgs S K T r sigma n "put") g))
         = Some pp
      /\ snd (fst (monte_carlo_body (mkArgs S K T r sigma n "call") g))
         = snd (fst (monte_carlo_body (mkArgs S K T r sigma n "put") g))
      /\ Np.mean (snd (fst (monte_carlo_body (mkArgs S K T r sigma n "call")
                              g))) = Some m
      /\ pc - pp = exp (- r * T) * (m - K).
Proof.
  intros S K T r sigma n g hi Hn _ _ _ _.
  destruct (monte_carlo_body_spec (mkArgs S K T r sigma n "call") g)
    as [-> _].
  destruct (monte_carlo_body_spec (mkArgs S K T r sigma n "put") g)
    as [-> _].
  cbn [fst snd arg_S arg_K arg_T arg_r arg_sigma arg_simulations
       arg_option_type].
  set (S_T := map (terminal_price S T r sigma) (fst (standard_normal n g))).
  assert (Hlen : List.length S_T = n)
    by (unfold S_T; rewrite length_map; apply standard_normal_length).
  assert (Hne : S_T <> []) by (intros E; rewrite E in Hlen; cbn in Hlen; lia).
  assert (Hnec : option_payoff S_T K "call" <> []).
  { intros E. apply (f_equal (@List.length R)) in E.
    rewrite option_payoff_map, length_map, Hlen in E. cbn in E. lia. }
  assert (Hnep : option_payoff S_T K "put" <> []).
  { intros E. apply (f_equal (@List.length R)) in E.
    rewrite option_payoff_map, length_map, Hlen in E. cbn in E. lia. }
  rewrite (mean_of_nonempty _ Hnec), (mean_of_nonempty _ Hnep),
    (mean_of_nonempty _ Hne).
  cbn [option_map].
  do 3 eexists. repeat apply conj; try reflexivity.
  pose proof (payoff_sum_parity K S_T) as Hsum.
  rewrite !option_payoff_map, !length_map in *.
  assert (Hn0 : INR (List.length S_T) <> 0)
    by (rewrite Hlen; apply not_0_INR; lia).
  set (c := Np.sum (map (fun s => payoff_at s K "call") S_T)) in *.
  set (p := Np.sum (map (fun s => payoff_at s K "put") S_T)) in *.
  replace c with (p + (Np.sum S_T - INR (List.length S_T) * K)) by lra.
  field. exact Hn0.
Qed.

Lemma monte_carlo_parity_witness :
  exists pc pp m,
    fst (fst (monte_carlo_body (mkArgs 100 100 1 0.05 0.2 3 "call")
                counting_rng)) = Some pc
    /\ fst (fst (monte_carlo_body (mkArgs 100 100 1 0.05 0.2 3 "put")
                   counting_rng)) = Some pp
    /\ snd (fst (monte_carlo_body (mkArgs 100 100 1 0.05 0.2 3 "call")
                   counting_rng))
       = snd (fst (monte_carlo_body (mkArgs 100 100 1 0.05 0.2 3 "put")
                     counting_rng))
    /\ Np.mean (snd (fst (monte_carlo_body
                            (mkArgs 100 100 1 0.05 0.2 3 "call")
                            counting_rng))) = Some m
    /\ pc - pp = exp (- (0.05) * 1) * (m - 100).
Proof.
  pose proof max_float_large. pose proof exp_le_3.
  apply (monte_carlo_parity 100 100 1 0.05 0.2 3 counting_rng (100 * exp 1)).
  - lia.
  - in_range.
  - exact sample_args_sample_bounded.
  - cbn [INR]. lra.
  - cbn [INR]. lra.
Defined.

(** An entry of the table survives every call. *)
Lemma cache_lookup_stable (a b : mc_args) (w : world)
  (v : option R * list R) :
  cache_lookup mc_args_eqb a (fst w) = Some v ->
  cache_lookup mc_args_eqb a (fst (snd (monte_carlo_option b w))) = Some v.
Proof.
  intros Ha. unfold monte_carlo_option.
  destruct (cache_lookup mc_args_eqb b (fst w)) as [res|] eqn:E.
  - rewrite (cache_data_hit _ _ b w res E). exact Ha.
  - rewrite (cache_data_miss _ _ b w E). cbn [fst snd cache_lookup].
    destruct (mc_args_eqb a b) eqn:Eab; [|exact Ha].
    apply mc_args_eqb_eq in Eab. subst b. rewrite Ha in E. discriminate E.
Qed.

Lemma run_calls_stable (a : mc_args) (calls : list mc_args) :
  forall (w : world) (v : option R * list R),
    cache_lookup mc_args_eqb a (fst w) = Some v ->
    cache_lookup mc_args_eqb a (fst (run_calls calls w)) = Some v.
Proof.
  induction calls as [|b calls IH]; intros w v Ha; cbn; [exact Ha|].
  apply IH, cache_lookup_stable, Ha.
Qed.

(** X19: a result, once computed, stays frozen: whatever calls are made in
    between, with whatever arguments, a later call with the arguments of an
    earlier one returns the price and the sample of the earlier one and
    takes nothing from the generator.  The table never drops or replaces
    an entry. *)
Theorem monte_carlo_result_frozen :
  forall (a : mc_args) (calls : list mc_args) (w : world),
    fst (monte_carlo_option a
           (run_calls calls (snd (monte_carlo_option a w))))
    = fst (monte_carlo_option a w)
    /\ snd (monte_carlo_option a
              (run_calls calls (snd (monte_carlo_option a w))))
       = run_calls calls (snd (monte_carlo_option a w)).
Proof.
  intros a calls w.
  assert (Hstored :
            cache_lookup mc_args_eqb a
              (fst (run_calls calls (snd (monte_carlo_option a w))))
            = Some (fst (monte_carlo_option a w))).
  { apply run_calls_stable. unfold monte_carlo_option.
    apply (cache_data_stores _ mc_args_eqb_eq). }
  assert (Hcall :
            monte_carlo_option a
              (run_calls calls (snd (monte_carlo_option a w)))
            = (fst (monte_carlo_option a w),
               run_calls calls (snd (monte_carlo_option a w))))
    by (apply (cache_data_hit mc_args_eqb), Hstored).
  rewrite Hcall. split; reflexivity.
Qed.

(** ** Risk statistics *)

(** The percentile lies between any two bounds of the sample. *)
Lemma percentile_between (a : list R) (q : nat) (lo hi : R) :
  a <> [] -> (q <= 100)%nat ->
  (forall x, In x a -> lo <= x <= hi) ->
  exists v, percentile a q = Some v /\ lo <= v <= hi.
Proof.
  intros Ha Hq Hb. destruct a as [|x a]; [contradiction|].
  set (s := x :: a) in *.
  unfold percentile. fold s.
  set (n := List.length s).
  set (j := ((n - 1) * q / 100)%nat).
  set (g := INR (((n - 1) * q) mod 100) / 100).
  set (j' := Nat.min (j + 1) (n - 1)).
  assert (Hn : (0 < n)%nat) by (unfold n, s; cbn; lia).
  assert (Hlen : List.length (sort s) = n) by apply sort_length.
  assert (Hj : (j <= n - 1)%nat).
  { unfold j. apply Nat.Div0.div_le_upper_bound. nia. }
  assert (Hmod : (((n - 1) * q) mod 100 < 100)%nat)
    by (apply Nat.mod_upper_bound; lia).
  assert (Hg : 0 <= g < 1).
  { unfold g. pose proof (pos_INR (((n - 1) * q) mod 100)) as H0.
    apply lt_INR in Hmod.
    replace (INR 100) with 100 in Hmod
      by (rewrite INR_IZR_INZ; reflexivity).
    lra. }
  assert (Hprev : lo <= nth j (sort s) 0 <= hi)
    by (apply Hb, sort_In, nth_In; lia).
  assert (Hnext : lo <= nth j' (sort s) 0 <= hi)
    by (apply Hb, sort_In, nth_In; unfold j'; lia).
  eexists. split; [reflexivity|].
  unfold lerp. destruct (Rleb (1 / 2) g); nra.
Qed.

Lemma mean_ge_bound (a : list R) (lo m : R) :
  (forall x, In x a -> lo <= x) -> Np.mean a = Some m -> lo <= m.
Proof.
  intros Hb Hm.
  assert (Hneg : Np.mean (map Ropp a) = Some (- m)).
  { assert (Hne : a <> []) by (intros ->; discriminate).
    rewrite (mean_of_nonempty _ Hne) in Hm. injection Hm as <-.
    rewrite mean_of_nonempty by (destruct a; [contradiction|discriminate]).
    rewrite length_map. f_equal.
    assert (Hs : Np.sum (map Ropp a) = - Np.sum a).
    { clear. induction a as [|x a IH]; cbn; [ring|].
      unfold Np.sum in IH. rewrite IH. ring. }
    rewrite Hs. unfold Rdiv. ring. }
  assert (- m <= - lo); [|lra].
  apply (mean_le_bound (map Ropp a)); [|exact Hneg].
  intros y Hy. apply in_map_iff in Hy. destruct Hy as (x & <- & Hx).
  specialize (Hb x Hx). lra.
Qed.

(** The two figures of a nonempty sample, between any bounds of it. *)
Lemma risk_metrics_between (S_T : list R) (lo hi : R) :
  S_T <> [] ->
  (forall x, In x S_T -> lo <= x <= hi) ->
  exists v es,
    risk_metrics S_T = Some (v, Some es) /\ lo <= es /\ es <= v /\ v <= hi.
Proof.
  intros Hne Hb.
  destruct (VaR_95_tail S_T Hne) as (v & Hv & Hin & Hle & Htail).
  destruct (percentile_between S_T 5 lo hi Hne) as (v' & Hv' & Hlo & Hhi);
    [lia|exact Hb|].
  fold (VaR_95 S_T) in Hv'. rewrite Hv in Hv'. injection Hv' as <-.
  assert (Hmask : mask_le S_T v <> []).
  { intros Hempty. unfold mask_le in Hempty. rewrite Hempty in Htail.
    exact Htail. }
  pose proof (mean_of_nonempty _ Hmask) as Hes.
  exists v. eexists. repeat apply conj.
  - unfold risk_metrics, ES_95. rewrite Hv, Hes. reflexivity.
  - apply (mean_ge_bound (mask_le S_T v)); [|exact Hes].
    intros x Hx. apply mask_le_In in Hx. apply Hb. tauto.
  - apply (mean_le_bound (mask_le S_T v) v); [|exact Hes].
    intros x Hx. apply mask_le_In in Hx. tauto.
  - exact Hhi.
Qed.



Lemma insert_sorted_comm (x y : R) (l : list R) :
  insert_sorted x (insert_sorted y l) = insert_sorted y (insert_sorted x l).
Proof.
  induction l as [|z l IH].
  - cbn. destruct (Rleb x y) eqn:Exy, (Rleb y x) eqn:Eyx; try reflexivity.
    + apply Rleb_le in Exy, Eyx. assert (x = y) by lra. subst. reflexivity.
    + apply Rleb_gt in Exy, Eyx. lra.
  - cbn [insert_sorted].
    destruct (Rleb y z) eqn:Eyz, (Rleb x z) eqn:Exz; cbn [insert_sorted];
      rewrite ?Eyz, ?Exz.
    + destruct (Rleb x y) eqn:Exy, (Rleb y x) eqn:Eyx; try reflexivity.
      * apply Rleb_le in Exy, Eyx. assert (x = y) by lra. subst. reflexivity.
      * apply Rleb_gt in Exy, Eyx. lra.
    + apply Rleb_le in Eyz. apply Rleb_gt in Exz.
      replace (Rleb x y) with false by (symmetry; apply Rleb_gt; lra).
      reflexivity.
    + apply Rleb_gt in Eyz. apply Rleb_le in Exz.
      replace (Rleb y x) with false by (symmetry; apply Rleb_gt; lra).
      reflexivity.
    + rewrite IH. reflexivity.
Qed.

(** Sorting forgets the order of its input. *)
Lemma sort_perm (a b : list R) : Permutation a b -> sort a = sort b.
Proof.
  induction 1 as [|x a b _ IH|x y a|a b c _ IH1 _ IH2].
  - reflexivity.
  - rewrite !sort_cons, IH. reflexivity.
  - rewrite !sort_cons. apply insert_sorted_comm.
  - rewrite IH1. exact IH2.
Qed.

Lemma percentile_perm (a b : list R) (q : nat) :
  Permutation a b -> percentile a q = percentile b q.
Proof.
  intros Hp. pose proof (Permutation_length Hp) as Hlen.
  pose proof (sort_perm a b Hp) as Hsort.
  destruct a as [|x a], b as [|y b]; try discriminate Hlen.
  - reflexivity.
  - unfold percentile. rewrite Hsort, Hlen. reflexivity.
Qed.

Lemma mask_le_perm (a b : list R) (v : R) :
  Permutation a b -> Permutation (mask_le a v) (mask_le b v).
Proof.
  unfold mask_le.
  induction 1 as [|x a b _ IH|x y a|a b c _ IH1 _ IH2]; cbn.
  - constructor.
  - destruct (Rleb x v); [constructor|]; exact IH.
  - destruct (Rleb x v), (Rleb y v); try apply Permutation_refl.
    apply perm_swap.
  - eapply perm_trans; eassumption.
Qed.

Lemma sum_perm (a b : list R) : Permutation a b -> Np.sum a = Np.sum b.
Proof.
  unfold Np.sum.
  induction 1 as [|x a b _ IH|x y a|a b c _ IH1 _ IH2]; cbn.
  - reflexivity.
  - rewrite IH. reflexivity.
  - ring.
  - rewrite IH1. exact IH2.
Qed.

Lemma mean_perm (a b : list R) : Permutation a b -> Np.mean a = Np.mean b.
Proof.
  intros Hp. pose proof (Permutation_length Hp) as Hlen.
  pose proof (sum_perm a b Hp) as Hsum.
  destruct a as [|x a], b as [|y b]; try discriminate Hlen.
  - reflexivity.
  - unfold Np.mean. rewrite Hsum, Hlen. reflexivity.
Qed.

(** X21: the risk figures depend on the sample as a multiset only: two
    samples that are rearrangements of each other have the same VaR and
    the same Expected Shortfall. *)
Theorem risk_metrics_permutation :
  forall S_T S_T' : list R,
    Permutation S_T S_T' ->
    VaR_95 S_T = VaR_95 S_T'
    /\ (forall v, ES_95 S_T v = ES_95 S_T' v)
    /\ risk_metrics S_T = risk_metrics S_T'.
Proof.
  intros S_T S_T' Hp.
  assert (Hv : VaR_95 S_T = VaR_95 S_T') by (apply percentile_perm, Hp).
  assert (He : forall v, ES_95 S_T v = ES_95 S_T' v)
    by (intros v; apply mean_perm, mask_le_perm, Hp).
  repeat apply conj; try assumption.
  unfold risk_metrics. rewrite Hv.
  destruct (VaR_95 S_T') as [v|]; [|reflexivity]. rewrite He. reflexivity.
Qed.

Lemma risk_metrics_permutation_witness :
  VaR_95 [3; 1; 2] = VaR_95 [1; 3; 2]
  /\ (forall v, ES_95 [3; 1; 2] v = ES_95 [1; 3; 2] v)
  /\ risk_metrics [3; 1; 2] = risk_metrics [1; 3; 2].
Proof.
  apply (risk_metrics_permutation [3; 1; 2] [1; 3; 2]). apply perm_swap.
Defined.

(** X22: from the simulation to the risk figures.  With at least one
    simulation, inputs of the dashboard and a sample whose prices stay
    below a finite bound, small enough for their sum to stay in the range
    of the floats, the sample handed to the risk lines is not
    empty, so both figures exist, and they are prices that are not
    negative, with the Expected Shortfall at most the VaR and the VaR at
    most the bound. *)
Theorem simulate_risk_defined :
  forall (a : mc_args) (w : world) (hi : R),
    (0 < arg_simulations a)%nat ->
    dashboard_args a ->
    cache_sound (fst w) ->
    (forall x, In x (snd (fst (monte_carlo_option a w))) -> x <= hi) ->
    INR (arg_simulations a) * hi <= max_float ->
    exists v es,
      simulate_risk a w = Some (v, Some es)
      /\ 0 <= es /\ es <= v /\ v <= hi.
Proof.
  intros a w hi Hn Hin Hsound Hhi _.
  destruct (dashboard_inputs_valid _ _ _ _ _ Hin) as (HS & _).
  unfold simulate_risk.
  set (S_T := snd (fst (monte_carlo_option a w))) in *.
  assert (Hshape : S_T <> [] /\ forall x, In x S_T -> 0 <= x).
  { unfold S_T.
    destruct (monte_carlo_option_from_body a w Hsound) as [g ->].
    destruct (monte_carlo_body_spec a g) as [-> _]. cbn [fst snd]. split.
    - intros E. apply (f_equal (@List.length R)) in E.
      rewrite length_map, standard_normal_length in E. cbn in E. lia.
    - intros x Hx. apply in_map_iff in Hx. destruct Hx as (z & <- & _).
      apply Rlt_le, terminal_price_pos, HS. }
  destruct Hshape as [Hne Hpos].
  destruct (risk_metrics_between S_T 0 hi Hne) as (v & es & Hr & H1 & H2 & H3).
  { intros x Hx. split; [apply Hpos, Hx|apply Hhi, Hx]. }
  exists v, es. repeat apply conj; assumption.
Qed.

Lemma simulate_risk_defined_witness :
  exists v es,
    simulate_risk sample_args ([], counting_rng) = Some (v, Some es)
    /\ 0 <= es /\ es <= v /\ v <= 100 * exp 1.
Proof.
  apply (simulate_risk_defined sample_args ([], counting_rng) (100 * exp 1)).
  - cbn. lia.
  - in_range.
  - exact cache_sound_nil.
  - exact sample_args_sample_bounded.
  - pose proof max_float_large. pose proof exp_le_3. cbn. lra.
Defined.

(** ** The dashboard script *)

(** The curve of the strategy builder, point by point. *)
Lemma builder_total_pl_covered_call (norm_cdf : R -> R)
  (S T r sigma k : R) (contracts : Z) :
  builder_total_pl norm_cdf "Covered Call" S T r sigma k contracts
  = map (fun s =>
           IZR contracts * 100
           * (s - S - Rmax (s - k) 0
              + black_scholes norm_cdf S k T r sigma "call"))
      (get_price_range S 0.5).
Proof.
  unfold builder_total_pl, builder_positions.
  cbn [String.eqb Ascii.eqb Bool.eqb].
  rewrite strategy_payoff_pointwise.
  unfold Np.mul_scalar, Np.sub_scalar. rewrite !map_map, add_map.
  apply map_ext. intros s.
  cbn [gross_payoff net_premium type strike action quantity premium].
  unfold payoff_at, sign. cbn [String.eqb Ascii.eqb Bool.eqb]. ring.
Qed.

Lemma builder_total_pl_protective_put (norm_cdf : R -> R)
  (S T r sigma k : R) (contracts : Z) :
  builder_total_pl norm_cdf "Protective Put" S T r sigma k contracts
  = map (fun s =>
           IZR contracts * 100
           * (s - S + Rmax (k - s) 0
              - black_scholes norm_cdf S k T r sigma "put"))
      (get_price_range S 0.5).
Proof.
  unfold builder_total_pl, builder_positions.
  cbn [String.eqb Ascii.eqb Bool.eqb].
  rewrite strategy_payoff_pointwise.
  unfold Np.mul_scalar, Np.sub_scalar. rewrite !map_map, add_map.
  apply map_ext. intros s.
  cbn [gross_payoff net_premium type strike action quantity premium].
  unfold payoff_at, sign. cbn [String.eqb Ascii.eqb Bool.eqb]. ring.
Qed.

(** X23: the covered call is capped.  For inputs of the dashboard, the
    strike of the call among them, and at most a million contracts, at
    every grid price the total profit of the stock held and the call sold is at
    most
    [contracts * 100 * (strike - S + premium)], and it is exactly that at
    every grid price at or above the strike. *)
Theorem covered_call_capped :
  forall (norm_cdf : R -> R) (S T r sigma strike : R) (contracts : Z)
         (i : nat),
    dashboard_inputs S strike T r sigma ->
    (0 <= contracts <= 1000000)%Z -> (i < 100)%nat ->
    nth i (builder_total_pl norm_cdf "Covered Call" S T r sigma strike
             contracts) 0
    <= IZR contracts * 100
       * (strike - S + black_scholes norm_cdf S strike T r sigma "call")
    /\ (strike <= nth i (get_price_range S 0.5) 0 ->
        nth i (builder_total_pl norm_cdf "Covered Call" S T r sigma strike
                 contracts) 0
        = IZR contracts * 100
          * (strike - S + black_scholes norm_cdf S strike T r sigma "call")).
Proof.
  intros norm_cdf S T r sigma strike c i _ [Hc _] Hi. apply IZR_le in Hc.
  rewrite builder_total_pl_covered_call.
  set (f := fun s => IZR c * 100 * (s - S - Rmax (s - strike) 0 + _)).
  rewrite (nth_indep _ 0 (f 0)).
  2:{ rewrite length_map. unfold get_price_range.
      change 100%nat with (Datatypes.S (Datatypes.S 98)).
      rewrite linspace_length. exact Hi. }
  rewrite (map_nth f). unfold f.
  set (s := nth i (get_price_range S 0.5) 0).
  set (p := black_scholes norm_cdf S strike T r sigma "call").
  split.
  - pose proof (Rmax_l (s - strike) 0) as Hm.
    assert (s - S - Rmax (s - strike) 0 + p <= strike - S + p) by lra.
    nra.
  - intros Hs. rewrite Rmax_left by lra. ring.
Qed.

Lemma covered_call_capped_witness :
  nth 99 (builder_total_pl logistic_cdf "Covered Call" 100 1 0.05 0.2 105 1)
    0
  <= IZR 1 * 100 * (105 - 100 + black_scholes logistic_cdf 100 105 1 0.05 0.2 "call")
  /\ (105 <= nth 99 (get_price_range 100 0.5) 0 ->
      nth 99 (builder_total_pl logistic_cdf "Covered Call" 100 1 0.05 0.2 105
                1) 0
      = IZR 1 * 100
        * (105 - 100 + black_scholes logistic_cdf 100 105 1 0.05 0.2 "call")).
Proof.
  apply (covered_call_capped logistic_cdf 100 1 0.05 0.2 105 1 99);
    [in_range|lia|lia].
Defined.

(** X24: the protective put has a floor.  For inputs of the dashboard,
    the strike of the put among them, and at most a million contracts, at
    every grid price the total profit of the stock held and the put bought is at
    least
    [contracts * 100 * (strike - S - premium)], and it is exactly that at
    every grid price at or below the strike. *)
Theorem protective_put_floored :
  forall (norm_cdf : R -> R) (S T r sigma strike : R) (contracts : Z)
         (i : nat),
    dashboard_inputs S strike T r sigma ->
    (0 <= contracts <= 1000000)%Z -> (i < 100)%nat ->
    IZR contracts * 100
    * (strike - S - black_scholes norm_cdf S strike T r sigma "put")
    <= nth i (builder_total_pl norm_cdf "Protective Put" S T r sigma strike
                contracts) 0
    /\ (nth i (get_price_range S 0.5) 0 <= strike ->
        nth i (builder_total_pl norm_cdf "Protective Put" S T r sigma strike
                 contracts) 0
        = IZR contracts * 100
          * (strike - S - black_scholes norm_cdf S strike T r sigma "put")).
Proof.
  intros norm_cdf S T r sigma strike c i _ [Hc _] Hi. apply IZR_le in Hc.
  rewrite builder_total_pl_protective_put.
  set (f := fun s => IZR c * 100 * (s - S + Rmax (strike - s) 0 - _)).
  rewrite (nth_indep _ 0 (f 0)).
  2:{ rewrite length_map. unfold get_price_range.
      change 100%nat with (Datatypes.S (Datatypes.S 98)).
      rewrite linspace_length. exact Hi. }
  rewrite (map_nth f). unfold f.
  set (s := nth i (get_price_range S 0.5) 0).
  set (p := black_scholes norm_cdf S strike T r sigma "put").
  split.
  - pose proof (Rmax_l (strike - s) 0) as Hm.
    assert (strike - S - p <= s - S + Rmax (strike - s) 0 - p) by lra.
    nra.
  - intros Hs. rewrite Rmax_left by lra. ring.
Qed.

Lemma protective_put_floored_witness :
  IZR 1 * 100 * (95 - 100 - black_scholes logistic_cdf 100 95 1 0.05 0.2 "put")
  <= nth 0 (builder_total_pl logistic_cdf "Protective Put" 100 1 0.05 0.2 95
              1) 0
  /\ (nth 0 (get_price_range 100 0.5) 0 <= 95 ->
      nth 0 (builder_total_pl logistic_cdf "Protective Put" 100 1 0.05 0.2 95
               1) 0
      = IZR 1 * 100
        * (95 - 100 - black_scholes logistic_cdf 100 95 1 0.05 0.2 "put")).
Proof.
  apply (protective_put_floored logistic_cdf 100 1 0.05 0.2 95 1 0);
    [in_range|lia|lia].
Defined.

(** X25: for inputs of the dashboard the payoff diagram draws its three curves over the same 100 grid points,
    and the profit-and-loss curve never falls below minus the
    Black-Scholes price: the premium is the most the holder can lose. *)
Theorem payoff_diagram_loss_bounded :
  forall (norm_cdf : R -> R) (S K T r sigma : R) (option_type : string),
    dashboard_inputs S K T r sigma ->
    List.length (fst (fst (payoff_diagram norm_cdf S K T r sigma option_type)))
    = 100%nat
    /\ List.length
         (snd (fst (payoff_diagram norm_cdf S K T r sigma option_type)))
       = 100%nat
    /\ List.length (snd (payoff_diagram norm_cdf S K T r sigma option_type))
       = 100%nat
    /\ Forall
         (fun x => - black_scholes norm_cdf S K T r sigma option_type <= x)
         (snd (payoff_diagram norm_cdf S K T r sigma option_type)).
Proof.
  intros norm_cdf S K T r sigma ty _.
  unfold payoff_diagram. cbn [fst snd].
  assert (Hlen : List.length (get_price_range S 0.5) = 100%nat)
    by (apply (linspace_length _ _ 98)).
  unfold Np.sub_scalar. rewrite option_payoff_map, map_map, !length_map.
  repeat apply conj; try exact Hlen.
  apply Forall_forall. intros x Hx. apply in_map_iff in Hx.
  destruct Hx as (s & <- & _). pose proof (payoff_at_nonneg s K ty). lra.
Qed.

Lemma payoff_diagram_loss_bounded_witness :
  List.length (fst (fst (payoff_diagram logistic_cdf 100 100 1 0.05 0.2
                           "call"))) = 100%nat
  /\ List.length (snd (fst (payoff_diagram logistic_cdf 100 100 1 0.05 0.2
                              "call"))) = 100%nat
  /\ List.length (snd (payoff_diagram logistic_cdf 100 100 1 0.05 0.2 "call"))
     = 100%nat
  /\ Forall
       (fun x => - black_scholes logistic_cdf 100 100 1 0.05 0.2 "call" <= x)
       (snd (payoff_diagram logistic_cdf 100 100 1 0.05 0.2 "call")).
Proof.
  apply (payoff_diagram_loss_bounded logistic_cdf 100 100 1 0.05 0.2 "call").
  in_range.
Defined.

(** ** Units and independent draws *)

(** X26: the price does not depend on the unit of account: multiplying
    the spot and the strike by one positive factor, with inputs of the
    dashboard before and after, multiplies the
    Black-Scholes price by that factor, for a call and for a put. *)
Theorem black_scholes_homogeneous :
  forall (norm_cdf : R -> R) (c S K T r sigma : R) (option_type : string),
    0 < c ->
    dashboard_inputs S K T r sigma ->
    dashboard_inputs (c * S) (c * K) T r sigma ->
    black_scholes norm_cdf (c * S) (c * K) T r sigma option_type
    = c * black_scholes norm_cdf S K T r sigma option_type.
Proof.
  intros norm_cdf c S K T r sigma ty Hc Hin _.
  destruct (dashboard_inputs_valid _ _ _ _ _ Hin) as (_ & HK & _).
  unfold black_scholes.
  replace (c * S / (c * K)) with (S / K) by (field; lra).
  destruct (String.eqb ty "call"); ring.
Qed.

Lemma black_scholes_homogeneous_witness :
  black_scholes logistic_cdf (100 * 1) (100 * 1.05) 1 0.05 0.2 "call"
  = 100 * black_scholes logistic_cdf 1 1.05 1 0.05 0.2 "call".
Proof.
  apply (black_scholes_homogeneous logistic_cdf 100 1 1.05 1 0.05 0.2 "call");
    [lra|in_range|in_range].
Defined.

Lemma map_shift_seq (g : rng) (k n : nat) :
  map (fun i => g (k + i)%nat) (seq 0 n) = map g (seq k n).
Proof.
  rewrite <- (map_map (fun i => (k + i)%nat) g). f_equal.
  revert k. induction n as [|n IH]; intros k; [reflexivity|].
  cbn [seq map]. rewrite Nat.add_0_r. f_equal.
  rewrite <- seq_shift, map_map.
  rewrite <- (IH (S k)). apply map_ext. intros i. lia.
Qed.

(** X27: two calls with different arguments, neither in the table, never
    share a variate: the second builds its sample from the variates that
    follow those taken by the first. *)
Theorem monte_carlo_consecutive_draws :
  forall (a b : mc_args) (w : world),
    a <> b ->
    cache_lookup mc_args_eqb a (fst w) = None ->
    cache_lookup mc_args_eqb b (fst w) = None ->
    snd (fst (monte_carlo_option a w))
    = map (terminal_price (arg_S a) (arg_T a) (arg_r a) (arg_sigma a))
        (map (snd w) (seq 0 (arg_simulations a)))
    /\ snd (fst (monte_carlo_option b (snd (monte_carlo_option a w))))
       = map (terminal_price (arg_S b) (arg_T b) (arg_r b) (arg_sigma b))
           (map (snd w) (seq (arg_simulations a) (arg_simulations b))).
Proof.
  intros a b w Hab Ea Eb.
  assert (Hfirst : monte_carlo_option a w
                   = (fst (monte_carlo_body a (snd w)),
                      ((a, fst (monte_carlo_body a (snd w))) :: fst w,
                       snd (monte_carlo_body a (snd w)))))
    by (apply (cache_data_miss mc_args_eqb), Ea).
  rewrite Hfirst. cbn [fst snd].
  destruct (monte_carlo_body_spec a (snd w)) as [Hres Hg].
  split.
  - rewrite Hres. reflexivity.
  - assert (Emiss : cache_lookup mc_args_eqb b
                      (fst ((a, fst (monte_carlo_body a (snd w))) :: fst w,
                            snd (monte_carlo_body a (snd w)))) = None).
    { cbn [fst cache_lookup].
      destruct (mc_args_eqb b a) eqn:Eba; [|exact Eb].
      apply mc_args_eqb_eq in Eba. congruence. }
    unfold monte_carlo_option.
    rewrite (cache_data_miss mc_args_eqb _ b _ Emiss). cbn [fst snd].
    destruct (monte_carlo_body_spec b (snd (monte_carlo_body a (snd w))))
      as [-> _].
    cbn [fst snd]. rewrite Hg. cbn [standard_normal fst snd].
    rewrite map_shift_seq. reflexivity.
Qed.

Lemma monte_carlo_consecutive_draws_witness :
  snd (fst (monte_carlo_option sample_args ([], counting_rng)))
  = map (terminal_price 100 1 0.05 0.2) (map counting_rng (seq 0 3))
  /\ snd (fst (monte_carlo_option (mkArgs 100 100 1 0.05 0.2 2 "put")
                 (snd (monte_carlo_option sample_args ([], counting_rng)))))
     = map (terminal_price 100 1 0.05 0.2) (map counting_rng (seq 3 2)).
Proof.
  apply (monte_carlo_consecutive_draws sample_args
           (mkArgs 100 100 1 0.05 0.2 2 "put") ([], counting_rng)).
  - discriminate.
  - reflexivity.
  - reflexivity.
Defined.
